(** * Crime statistics pipeline: normaliser, relational loader, projections

    A shallow embedding of [app.py]:

    - [load_and_clean_data]: the cleaning pass over the rows read from the
      semicolon-delimited file;
    - [create_normalized_database]: the insert-if-absent loader into the four
      tables [risp], [municipio], [tipo_crime] and [crime];
    - [plot_crimes_por_mes] and [plot_crimes_por_trimestre]: the aggregated
      tables the two time projections print before drawing;
    - [plot_top_municipios] and [plot_crimes_por_tipo]: the ranked tables;
    - [main]: the normaliser, the loader and the menu loop in sequence.

    Conventions of the embedding:

    - a data frame is the list of its rows, in index order, and a column
      operation of pandas is the same operation on that field of every row;
      an operation that fails on one value of a column fails as a whole;
    - a Python [str] is the list of its Unicode code points;
    - numbers are exact: a parsed value is a finite decimal and an integer is
      a mathematical integer (the rounding of float64 and the range of int64
      are not modelled);
    - the database enforces the constraints the schema declares (primary
      key, unique, foreign key, not null) and is transactional; two keys are
      the same when they are equal as values; the length limits of the
      string columns and failures of the connection are not modelled;
    - the algorithm of [sort_values] is a parameter of the two ranked
      projections, and the lines [input] reads are a list. *)

From Stdlib Require Import Ascii String.
From stdpp Require Import base decidable option numbers list gmap pretty lexico sorting.

Local Open Scope Z_scope.

(** ** Python strings *)

Module PyStr.

(** A [str] value: its code points. *)
Abbreviation pystr := (list N).

(** An ASCII literal as a [str]. *)
Definition py (s : string) : pystr := N_of_ascii <$> list_ascii_of_string s.

(** [str.isspace] on one character: the code points Python takes for
    white space. *)
Definition isspace (c : N) : bool :=
  bool_decide (9 ≤ c ≤ 13)%N || bool_decide (28 ≤ c ≤ 32)%N
  || bool_decide (c = 133)%N || bool_decide (c = 160)%N
  || bool_decide (c = 5760)%N || bool_decide (8192 ≤ c ≤ 8202)%N
  || bool_decide (c = 8232)%N || bool_decide (c = 8233)%N
  || bool_decide (c = 8239)%N || bool_decide (c = 8287)%N
  || bool_decide (c = 12288)%N.

Fixpoint lstrip (s : pystr) : pystr :=
  match s with
  | c :: s' => if isspace c then lstrip s' else s
  | [] => []
  end.

Definition rstrip (s : pystr) : pystr := reverse (lstrip (reverse s)).

(** [s.strip()] *)
Definition strip (s : pystr) : pystr := rstrip (lstrip s).

(** Upper case of one character.  Covered: ASCII and Latin-1 (U+0000 to
    U+00FF), where three characters leave the block or grow (the micro
    sign, the sharp s and y with diaeresis).  A character above U+00FF is
    left as it is. *)
Definition upper_char (c : N) : pystr :=
  if bool_decide (97 ≤ c ≤ 122)%N then [(c - 32)%N]
  else if bool_decide (c = 181)%N then [924%N]
  else if bool_decide (c = 223)%N then [83%N; 83%N]
  else if bool_decide (c = 247)%N then [c]
  else if bool_decide (224 ≤ c ≤ 254)%N then [(c - 32)%N]
  else if bool_decide (c = 255)%N then [376%N]
  else [c].

(** [s.upper()] *)
Definition upper (s : pystr) : pystr := s ≫= upper_char.

(** The two keys of the [rmbh] dictionary: 'SIM' and 'NÃO' (the second
    letter of the latter is U+00C3). *)
Definition SIM : pystr := py "SIM".
Definition NAO : pystr := [78%N; 195%N; 79%N].

End PyStr.
Import PyStr.

(** ** Exceptions and results *)

(** The constraints of the schema an INSERT can violate. *)
Inductive constraint :=
  | NotNull      (* a column declared [nullable=False] receives no value *)
  | PrimaryKey   (* [risp.id], [municipio.cod_municipio] *)
  | Unique       (* [tipo_crime.nome], [_crime_uc] *)
  | ForeignKey.  (* [municipio.risp_id], [crime.municipio_id], [crime.tipo_crime_id] *)

(** The exceptions the two functions can leave with.  Neither function
    catches an exception, so each of them ends the call. *)
Inductive exn :=
  | IntCastingNaNError              (* [astype(int)] over a column holding NaN *)
  | IntegrityError (c : constraint). (* the store rejects a row *)

Inductive result (A : Type) :=
  | Ok (a : A)
  | Raise (e : exn).
Arguments Ok {A} a.
Arguments Raise {A} e.

#[global] Instance result_ret : MRet result := λ A a, Ok a.
#[global] Instance result_bind : MBind result := λ A B f m,
  match m with Ok a => f a | Raise e => Raise e end.

#[global] Instance constraint_eq_dec : EqDecision constraint.
Proof. solve_decision. Defined.
#[global] Instance exn_eq_dec : EqDecision exn.
Proof. solve_decision. Defined.

(** ** The normaliser *)

(** A cell as [read_csv] delivers it: its text, or missing (NaN) when the
    field is empty.  The columns [municipio], [cod_municipio], [natureza] and
    [rmbh] are taken to be text columns (dtype [object]); for the four
    numeric columns [pd.to_numeric] gives the same value whether [read_csv]
    already parsed the column or left it as text. *)
Abbreviation cell := (option pystr).

(** A value of a numeric column after [pd.to_numeric(..., errors='coerce')]:
    NaN, or the finite decimal [m / 10^e]. *)
Inductive float :=
  | NaN
  | Fin (m : Z) (e : nat).

Definition isna (x : float) : bool :=
  match x with NaN => true | Fin _ _ => false end.

Module Numeric.

Definition digit (c : N) : option Z :=
  if bool_decide (48 ≤ c ≤ 57)%N then Some (Z.of_N c - 48) else None.

(** The longest prefix of digits, most significant first, and the rest. *)
Fixpoint span_digits (s : pystr) : list Z * pystr :=
  match s with
  | c :: s' =>
      match digit c with
      | Some d => let '(ds, rest) := span_digits s' in (d :: ds, rest)
      | None => ([], s)
      end
  | [] => ([], [])
  end.

Definition value (ds : list Z) : Z := foldl (λ acc d, 10 * acc + d) 0 ds.

(** An unsigned decimal literal: digits, optionally a point and more
    digits, with a digit on at least one side of the point. *)
Definition unsigned (s : pystr) : float :=
  let '(ip, rest) := span_digits s in
  match rest with
  | [] => if bool_decide (ip = []) then NaN else Fin (value ip) 0
  | c :: rest' =>
      if bool_decide (c = 46%N) then
        let '(fp, rest'') := span_digits rest' in
        if bool_decide (rest'' = []) && negb (bool_decide (ip ++ fp = []))
        then Fin (value (ip ++ fp)) (length fp)
        else NaN
      else NaN
  end.

Definition negate (x : float) : float :=
  match x with NaN => NaN | Fin m e => Fin (- m) e end.

(** The value of a numeric literal.  Covered: signed decimal literals; every
    other text counts as unparsable. *)
Definition parse (s : pystr) : float :=
  match s with
  | c :: s' =>
      if bool_decide (c = 45%N) then negate (unsigned s')
      else if bool_decide (c = 43%N) then unsigned s'
      else unsigned s
  | [] => NaN
  end.

End Numeric.

(** [pd.to_numeric(col, errors='coerce')] on one cell: what does not parse, and
    what is missing, becomes NaN. *)
Definition to_numeric (c : cell) : float :=
  match c with
  | Some s => Numeric.parse s
  | None => NaN
  end.

(** [astype(int)] on one value of a float column: truncation towards zero;
    NaN cannot be converted. *)
Definition astype_int (x : float) : result Z :=
  match x with
  | Fin m e => Ok (Z.quot m (10 ^ Z.of_nat e))
  | NaN => Raise IntCastingNaNError
  end.

(** [col.astype(str)] on one cell of an object column. *)
Definition astype_str (c : cell) : pystr :=
  match c with
  | Some s => s
  | None => py "nan"
  end.

(** [col.map({'SIM': True, 'NÃO': False})]: a value that is no key of the
    dictionary, NaN included, maps to NaN. *)
Definition map_rmbh (c : cell) : option bool :=
  match c with
  | Some s =>
      if bool_decide (s = SIM) then Some true
      else if bool_decide (s = NAO) then Some false
      else None
  | None => None
  end.

(** A row of the file. *)
Record RawRow := {
  raw_municipio : cell;
  raw_cod_municipio : cell;
  raw_natureza : cell;
  raw_rmbh : cell;
  raw_registros : cell;
  raw_mes : cell;
  raw_ano : cell;
  raw_risp : cell
}.

(** A row after the conversions of lines 36 to 50: the three counts are
    float values, [risp] is already an integer. *)
Record CoercedRow := {
  co_municipio : cell;
  co_cod_municipio : pystr;
  co_natureza : cell;
  co_rmbh : option bool;
  co_registros : float;
  co_mes : float;
  co_ano : float;
  co_risp : Z
}.

(** A row of the cleaned data frame. *)
Record Row := {
  municipio : cell;
  cod_municipio : pystr;
  natureza : cell;
  rmbh : option bool;
  registros : Z;
  mes : Z;
  ano : Z;
  risp : Z;
  natureza_padronizada : cell
}.

(** Line 42 on one cell. *)
Definition clean_rmbh (c : cell) : option bool :=
  map_rmbh (upper <$> (strip <$> c)).

(** Lines 36 to 50 on one row.  The cast of [risp] to [int] is applied to
    the whole column before any row is dropped, so one NaN there raises. *)
Definition coerce (r : RawRow) : result CoercedRow :=
  let municipio := upper <$> (strip <$> raw_municipio r) in
  let natureza := strip <$> raw_natureza r in
  let rmbh := clean_rmbh (raw_rmbh r) in
  let registros := to_numeric (raw_registros r) in
  let cod_municipio := strip (astype_str (raw_cod_municipio r)) in
  let mes := to_numeric (raw_mes r) in
  let ano := to_numeric (raw_ano r) in
  risp ← astype_int (to_numeric (raw_risp r));
  Ok {| co_municipio := municipio; co_cod_municipio := cod_municipio;
        co_natureza := natureza; co_rmbh := rmbh; co_registros := registros;
        co_mes := mes; co_ano := ano; co_risp := risp |}.

(** An integer column holds no NaN. *)
Definition isna_int (_ : Z) : bool := false.

(** The rows [dropna(subset=["registros", "mes", "ano", "risp"])] keeps. *)
Definition complete (r : CoercedRow) : Prop :=
  isna (co_registros r) = false ∧ isna (co_mes r) = false
  ∧ isna (co_ano r) = false ∧ isna_int (co_risp r) = false.

#[global] Instance complete_dec r : Decision (complete r).
Proof. unfold complete. apply _. Defined.

(** Lines 56 to 65 on one row. *)
Definition finish (r : CoercedRow) : result Row :=
  registros ← astype_int (co_registros r);
  mes ← astype_int (co_mes r);
  ano ← astype_int (co_ano r);
  Ok {| municipio := co_municipio r; cod_municipio := co_cod_municipio r;
        natureza := co_natureza r; rmbh := co_rmbh r;
        registros := registros; mes := mes; ano := ano; risp := co_risp r;
        natureza_padronizada := upper <$> co_natureza r |}.

Definition load_and_clean_data (df : list RawRow) : result (list Row) :=
  df ← mapM coerce df;
  let df := filter complete df in
  mapM finish df.

(** The row of the file with the given cells, for examples. *)
Definition raw (municipio cod natureza rmbh registros mes ano risp : cell) : RawRow :=
  {| raw_municipio := municipio; raw_cod_municipio := cod;
     raw_natureza := natureza; raw_rmbh := rmbh; raw_registros := registros;
     raw_mes := mes; raw_ano := ano; raw_risp := risp |}.

(** ** The schema *)

(** The four mapped classes.  A stored row holds a value in every column:
    all of them are declared [nullable=False] or are primary keys. *)

Module Risp.
Record t := { id : Z; descricao : pystr }.
End Risp.

Module Municipio.
Record t := { cod_municipio : pystr; nome : pystr; risp_id : Z }.
End Municipio.

Module TipoCrime.
Record t := { id : Z; nome : pystr }.
End TipoCrime.

Module Crime.
Record t := {
  id : Z;
  mes : Z;
  ano : Z;
  registros : Z;
  rmbh : bool;
  municipio_id : pystr;
  tipo_crime_id : Z
}.

(** The columns of [_crime_uc]. *)
Definition key (c : t) : pystr * Z * Z * Z :=
  (municipio_id c, tipo_crime_id c, mes c, ano c).
End Crime.

(** The content of the database: the rows of each table in insertion order,
    and the next value of the two [autoincrement] keys. *)
Record store := {
  risp_tbl : list Risp.t;
  municipio_tbl : list Municipio.t;
  tipo_crime_tbl : list TipoCrime.t;
  crime_tbl : list Crime.t;
  tipo_crime_seq : Z;
  crime_seq : Z
}.

(** The database after [create_all] on a new schema. *)
Definition empty_store : store :=
  {| risp_tbl := []; municipio_tbl := []; tipo_crime_tbl := []; crime_tbl := [];
     tipo_crime_seq := 1; crime_seq := 1 |}.

(** ** The session *)

(** The session flushes what was added before it runs a query
    ([sessionmaker] is left at [autoflush=True]), so a query sees the rows
    added before it, and a row the store rejects raises inside the step that
    added it.  An addition is therefore modelled as the INSERT itself. *)

(** [query(...).filter_by(...).first()]: the first row of the table that
    satisfies the filter. *)
Definition first {A} (P : A → Prop) `{∀ x, Decision (P x)} (tbl : list A) : option A :=
  snd <$> list_find P tbl.

Definition query_risp (db : store) (id : Z) : option Risp.t :=
  first (λ x, Risp.id x = id) (risp_tbl db).

Definition query_municipio (db : store) (cod_municipio : pystr) : option Municipio.t :=
  first (λ x, Municipio.cod_municipio x = cod_municipio) (municipio_tbl db).

(** A comparison with a missing value selects no row. *)
Definition query_tipo_crime (db : store) (nome : cell) : option TipoCrime.t :=
  first (λ x, Some (TipoCrime.nome x) = nome) (tipo_crime_tbl db).

Definition query_crime (db : store) (municipio_id : pystr) (tipo_crime_id : option Z)
    (mes ano : Z) : option Crime.t :=
  first (λ x, Crime.municipio_id x = municipio_id
              ∧ Some (Crime.tipo_crime_id x) = tipo_crime_id
              ∧ Crime.mes x = mes ∧ Crime.ano x = ano) (crime_tbl db).

(** INSERT INTO risp *)
Definition add_risp (db : store) (id : Z) (descricao : pystr) : result store :=
  if decide (id ∈ Risp.id <$> risp_tbl db) then Raise (IntegrityError PrimaryKey)
  else Ok {| risp_tbl := risp_tbl db ++ [ {| Risp.id := id; Risp.descricao := descricao |} ];
             municipio_tbl := municipio_tbl db; tipo_crime_tbl := tipo_crime_tbl db;
             crime_tbl := crime_tbl db; tipo_crime_seq := tipo_crime_seq db;
             crime_seq := crime_seq db |}.

(** INSERT INTO municipio *)
Definition add_municipio (db : store) (cod_municipio : pystr) (nome : cell) (risp_id : Z)
    : result store :=
  match nome with
  | None => Raise (IntegrityError NotNull)
  | Some nome =>
      if decide (cod_municipio ∈ Municipio.cod_municipio <$> municipio_tbl db)
      then Raise (IntegrityError PrimaryKey)
      else if decide (risp_id ∈ Risp.id <$> risp_tbl db) then
        Ok {| risp_tbl := risp_tbl db;
              municipio_tbl := municipio_tbl db ++
                [ {| Municipio.cod_municipio := cod_municipio; Municipio.nome := nome;
                     Municipio.risp_id := risp_id |} ];
              tipo_crime_tbl := tipo_crime_tbl db; crime_tbl := crime_tbl db;
              tipo_crime_seq := tipo_crime_seq db; crime_seq := crime_seq db |}
      else Raise (IntegrityError ForeignKey)
  end.

(** INSERT INTO tipo_crime; the store assigns the key, which is returned
    ([new_tc.id] after the commit). *)
Definition add_tipo_crime (db : store) (nome : cell) : result (store * Z) :=
  match nome with
  | None => Raise (IntegrityError NotNull)
  | Some nome =>
      if decide (nome ∈ TipoCrime.nome <$> tipo_crime_tbl db)
      then Raise (IntegrityError Unique)
      else
        let id := tipo_crime_seq db in
        Ok ({| risp_tbl := risp_tbl db; municipio_tbl := municipio_tbl db;
               tipo_crime_tbl := tipo_crime_tbl db ++
                 [ {| TipoCrime.id := id; TipoCrime.nome := nome |} ];
               crime_tbl := crime_tbl db; tipo_crime_seq := id + 1;
               crime_seq := crime_seq db |}, id)
  end.

(** INSERT INTO crime *)
Definition add_crime (db : store) (mes ano registros : Z) (rmbh : option bool)
    (municipio_id : pystr) (tipo_crime_id : option Z) : result store :=
  match rmbh, tipo_crime_id with
  | Some rmbh, Some tipo_crime_id =>
      if decide ((municipio_id, tipo_crime_id, mes, ano) ∈ Crime.key <$> crime_tbl db)
      then Raise (IntegrityError Unique)
      else if decide (municipio_id ∈ Municipio.cod_municipio <$> municipio_tbl db
                      ∧ tipo_crime_id ∈ TipoCrime.id <$> tipo_crime_tbl db) then
        let id := crime_seq db in
        Ok {| risp_tbl := risp_tbl db; municipio_tbl := municipio_tbl db;
              tipo_crime_tbl := tipo_crime_tbl db;
              crime_tbl := crime_tbl db ++
                [ {| Crime.id := id; Crime.mes := mes; Crime.ano := ano;
                     Crime.registros := registros; Crime.rmbh := rmbh;
                     Crime.municipio_id := municipio_id;
                     Crime.tipo_crime_id := tipo_crime_id |} ];
              tipo_crime_seq := tipo_crime_seq db; crime_seq := id + 1 |}
      else Raise (IntegrityError ForeignKey)
  | _, _ => Raise (IntegrityError NotNull)
  end.

(** ** The loader *)

(** [col.unique()] and [drop_duplicates()]: the first occurrence of every
    value, in order of appearance; NaN counts as one value. *)
Fixpoint unique_from `{EqDecision A} (seen l : list A) : list A :=
  match l with
  | x :: l' =>
      if decide (x ∈ seen) then unique_from seen l'
      else x :: unique_from (x :: seen) l'
  | [] => []
  end.

Definition unique `{EqDecision A} (l : list A) : list A := unique_from [] l.

(** A [for] loop whose body updates the state or raises. *)
Fixpoint for_each {A S} (body : A → S → result S) (l : list A) (s : S) : result S :=
  match l with
  | x :: l' => s' ← body x s; for_each body l' s'
  | [] => Ok s
  end.

(** [f"RISP {r}"] *)
Definition descricao_of (r : Z) : pystr := py "RISP " ++ py (pretty r).

(** Body of the loop of lines 177 to 181. *)
Definition insert_risp (r : Z) (db : store) : result store :=
  match query_risp db r with
  | Some _ => Ok db
  | None => add_risp db r (descricao_of r)
  end.

(** Body of the loop of lines 189 to 197, on a row of the de-duplicated
    frame of columns [cod_municipio], [municipio] and [risp]. *)
Definition insert_municipio (row : pystr * cell * Z) (db : store) : result store :=
  let '(cod_municipio, municipio, risp) := row in
  match query_municipio db cod_municipio with
  | Some _ => Ok db
  | None => add_municipio db cod_municipio municipio risp
  end.

(** The loop of lines 206 to 214.  Every insertion is committed on its own,
    so when the loop raises the store keeps the types inserted so far: the
    first component is the committed store. *)
Fixpoint insert_tipos (tipos : list cell) (db : store) (tipo_crime_dict : gmap cell Z)
    : store * result (gmap cell Z) :=
  match tipos with
  | nome :: tipos' =>
      match query_tipo_crime db nome with
      | Some existing =>
          insert_tipos tipos' db (<[nome := TipoCrime.id existing]> tipo_crime_dict)
      | None =>
          match add_tipo_crime db nome with
          | Ok (db', id) => insert_tipos tipos' db' (<[nome := id]> tipo_crime_dict)
          | Raise e => (db, Raise e)
          end
      end
  | [] => (db, Ok tipo_crime_dict)
  end.

(** Body of the loop of lines 222 to 238. *)
Definition insert_crime (tipo_crime_dict : gmap cell Z) (row : Row) (db : store)
    : result store :=
  let tipo_crime_id := tipo_crime_dict !! natureza_padronizada row in
  match query_crime db (cod_municipio row) tipo_crime_id (mes row) (ano row) with
  | Some _ => Ok db
  | None =>
      add_crime db (mes row) (ano row) (registros row) (rmbh row)
        (cod_municipio row) tipo_crime_id
  end.

(** How a call of the loader ends. *)
Inductive outcome :=
  | Skipped            (* line 167: the data is already there *)
  | Inserted           (* line 241 *)
  | Aborted (e : exn). (* an exception leaves the function *)

(** [create_normalized_database(df)] on the database [db]: the database it
    leaves, that is what was committed, and how the call ended.  Commits are
    at lines 182, 198, 211 and 239; what a step added before it raised is
    not committed. *)
Definition create_normalized_database (db : store) (df : list Row) : store * outcome :=
  if bool_decide (crime_tbl db ≠ []) then (db, Skipped)
  else
    let risp_values := unique (risp <$> df) in
    match for_each insert_risp risp_values db with
    | Raise e => (db, Aborted e)
    | Ok db1 =>
        let municipios :=
          unique ((λ r, (cod_municipio r, municipio r, risp r)) <$> df) in
        match for_each insert_municipio municipios db1 with
        | Raise e => (db1, Aborted e)
        | Ok db2 =>
            let tipos_unicos := unique (natureza_padronizada <$> df) in
            match insert_tipos tipos_unicos db2 ∅ with
            | (db3, Raise e) => (db3, Aborted e)
            | (db3, Ok tipo_crime_dict) =>
                match for_each (insert_crime tipo_crime_dict) df db3 with
                | Raise e => (db3, Aborted e)
                | Ok db4 => (db4, Inserted)
                end
            end
        end
    end.

(** The database after the loader ran on each data frame of [dfs] in turn. *)
Definition load_all (db : store) (dfs : list (list Row)) : store :=
  foldl (λ db df, (create_normalized_database db df).1) db dfs.

(** ** The projections *)

(** [df.groupby(key)[val].sum()]: a series indexed by the values of [key]. *)
Definition groupby_sum (key val : Row → Z) (df : list Row) : gmap Z Z :=
  foldl (λ g r, <[key r := default 0 (g !! key r) + val r]> g) ∅ df.

(** [reset_index().set_index(k).reindex(labels, fill_value=v).reset_index()]:
    one row per label, in the order of [labels]. *)
Definition reindex (labels : list Z) (fill_value : Z) (g : gmap Z Z) : list (Z * Z) :=
  (λ k, (k, default fill_value (g !! k))) <$> labels.

(** The table [crimes_por_mes] the function prints and plots:
    columns [mes] and [registros]. *)
Definition plot_crimes_por_mes (df : list Row) : list (Z * Z) :=
  reindex (seqZ 1 12) 0 (groupby_sum mes registros df).

(** Line 310: the column [trimestre]. *)
Definition trimestre (r : Row) : Z := (mes r - 1) `div` 3 + 1.

(** The table [crimes_por_trimestre]: columns [trimestre] and [registros]. *)
Definition plot_crimes_por_trimestre (df : list Row) : list (Z * Z) :=
  reindex (seqZ 1 4) 0 (groupby_sum trimestre registros df).

(** The sum of [registros] over the rows that satisfy [P]. *)
Definition total (P : Row → Prop) `{∀ r, Decision (P r)} (df : list Row) : Z :=
  foldr Z.add 0 (registros <$> filter P df).

(** ** The ranked projections *)

(** [df.groupby(key)[val].sum()] on a text column: a series indexed by the
    values of [key]; the rows whose key is missing are left out. *)
Definition groupby_sum_text (key : Row → cell) (val : Row → Z) (df : list Row)
    : gmap pystr Z :=
  foldl (λ g r, match key r with
                | Some k => <[k := default 0 (g !! k) + val r]> g
                | None => g
                end) ∅ df.

(** The order of two strings: code point by code point. *)
Definition str_le (a b : pystr) : bool :=
  match trichotomyT lexico a b with
  | inleft _ => true
  | inright _ => false
  end.

(** [reset_index()] on the grouped series: the rows (key, sum), in the
    order of the keys. *)
Definition reset_index (g : gmap pystr Z) : list (pystr * Z) :=
  merge_sort (λ a b, str_le a.1 b.1) (map_to_list g).

(** The order of the rows after [sort_values(by="registros", ascending=False)]:
    no row is followed by a row with a larger sum. *)
Definition descending (a b : pystr * Z) : Prop := b.2 ≤ a.2.

#[global] Instance descending_dec : RelDecision descending.
Proof. intros a b. unfold descending. apply _. Defined.

(** The two functions below call [sort_values] with its default algorithm,
    which does not say how it orders rows with the same sum: the sort is a
    parameter, [sort_values]. *)

(** The table [top_municipios] the function prints and plots: columns
    [municipio] and [registros]. *)
Definition plot_top_municipios (sort_values : list (pystr * Z) → list (pystr * Z))
    (df : list Row) : list (pystr * Z) :=
  let crimes_por_municipio := reset_index (groupby_sum_text municipio registros df) in
  take 10 (sort_values crimes_por_municipio).

(** The table the function prints and plots: columns [natureza_padronizada]
    and [registros]. *)
Definition plot_crimes_por_tipo (sort_values : list (pystr * Z) → list (pystr * Z))
    (df : list Row) : list (pystr * Z) :=
  let crimes_por_tipo :=
    reset_index (groupby_sum_text natureza_padronizada registros df) in
  sort_values crimes_por_tipo.

(** ** The menu *)






(** ** Reference descriptions

    What the statements below compare the functions with. *)

(** The integer a parsed value is cast to. *)
Definition trunc (x : float) : Z :=
  match x with
  | Fin m e => Z.quot m (10 ^ Z.of_nat e)
  | NaN => 0
  end.

(** The cell parses as a number. *)
Definition parses (c : cell) : Prop := isna (to_numeric c) = false.

(** The row has a number in each of the three counts. *)
Definition kept (r : RawRow) : Prop :=
  parses (raw_registros r) ∧ parses (raw_mes r) ∧ parses (raw_ano r).

#[global] Instance kept_dec r : Decision (kept r).
Proof. unfold kept, parses. apply _. Defined.


(** The cleaned form of a row that is kept. *)
Definition cleaned (r : RawRow) : Row :=
  {| municipio := upper <$> (strip <$> raw_municipio r);
     cod_municipio := strip (astype_str (raw_cod_municipio r));
     natureza := strip <$> raw_natureza r;
     rmbh := clean_rmbh (raw_rmbh r);
     registros := trunc (to_numeric (raw_registros r));
     mes := trunc (to_numeric (raw_mes r));
     ano := trunc (to_numeric (raw_ano r));
     risp := trunc (to_numeric (raw_risp r));
     natureza_padronizada := upper <$> (strip <$> raw_natureza r) |}.

(** The number of rows of each table. *)
Definition row_counts (db : store) : nat * nat * nat * nat :=
  (length (risp_tbl db), length (municipio_tbl db),
   length (tipo_crime_tbl db), length (crime_tbl db)).

(** No two rows of a table share its key. *)
Definition store_unique (db : store) : Prop :=
  NoDup (Risp.id <$> risp_tbl db)
  ∧ NoDup (Municipio.cod_municipio <$> municipio_tbl db)
  ∧ NoDup (TipoCrime.nome <$> tipo_crime_tbl db)
  ∧ NoDup (Crime.key <$> crime_tbl db).

(** The key the store has for a type name: that of the first row of the
    name. *)
Definition tipo_id (db : store) (nome : cell) : option Z :=
  TipoCrime.id <$> query_tipo_crime db nome.

(** The row of the frame has the key of the stored row [c]. *)
Definition same_key (db : store) (c : Crime.t) (r : Row) : Prop :=
  cod_municipio r = Crime.municipio_id c
  ∧ tipo_id db (natureza_padronizada r) = Some (Crime.tipo_crime_id c)
  ∧ mes r = Crime.mes c ∧ ano r = Crime.ano c.

#[global] Instance same_key_dec db c r : Decision (same_key db c r).
Proof. unfold same_key. apply _. Defined.

(** The same, with the type resolved by the dictionary of the loader. *)
Definition matches (tipo_crime_dict : gmap cell Z) (c : Crime.t) (r : Row) : Prop :=
  cod_municipio r = Crime.municipio_id c
  ∧ tipo_crime_dict !! natureza_padronizada r = Some (Crime.tipo_crime_id c)
  ∧ mes r = Crime.mes c ∧ ano r = Crime.ano c.

#[global] Instance matches_dec d c r : Decision (matches d c r).
Proof. unfold matches. apply _. Defined.

(** A cleaned row with the given values, for examples. *)
Definition row (municipio : cell) (cod : pystr) (natureza : cell) (rmbh : option bool)
    (registros mes ano risp : Z) : Row :=
  {| municipio := municipio; cod_municipio := cod; natureza := natureza;
     rmbh := rmbh; registros := registros; mes := mes; ano := ano; risp := risp;
     natureza_padronizada := upper <$> natureza |}.

(** Cleaned rows, for examples: a row of Belo Horizonte; a row with the
    same code, type, month and year but another name, region, count and no
    [rmbh]; a row without a type. *)
Definition row_bh : Row :=
  row (Some (py "BELO HORIZONTE")) (py "0001") (Some (py "ROUBO")) (Some true)
      10 1 2023 1.

Definition row_bh_other : Row :=
  row (Some (py "BH")) (py "0001") (Some (py "ROUBO")) None 99 1 2023 7.

Definition row_no_type : Row :=
  row (Some (py "BELO HORIZONTE")) (py "0001") None (Some true) 10 1 2023 1.

(** Rows of a file, for examples: a well-formed row, and the same row with
    one cell changed. *)
Definition raw_ok : RawRow :=
  raw (Some (py "Belo Horizonte")) (Some (py "MG-0001")) (Some (py "Roubo"))
      (Some (py "SIM")) (Some (py "12")) (Some (py "13")) (Some (py "2023"))
      (Some (py "2")).

Definition raw_registros_abc : RawRow :=
  raw (Some (py "Belo Horizonte")) (Some (py "MG-0001")) (Some (py "Roubo"))
      (Some (py "SIM")) (Some (py "abc")) (Some (py "13")) (Some (py "2023"))
      (Some (py "2")).

Definition raw_risp_abc : RawRow :=
  raw (Some (py "Belo Horizonte")) (Some (py "MG-0001")) (Some (py "Roubo"))
      (Some (py "SIM")) (Some (py "12")) (Some (py "13")) (Some (py "2023"))
      (Some (py "abc")).

Definition raw_risp_missing : RawRow :=
  raw (Some (py "Belo Horizonte")) (Some (py "MG-0001")) (Some (py "Roubo"))
      (Some (py "SIM")) (Some (py "12")) (Some (py "13")) (Some (py "2023"))
      None.

Definition raw_rmbh_other : RawRow :=
  raw (Some (py "Belo Horizonte")) (Some (py "MG-0001")) (Some (py "Roubo"))
      (Some (py "talvez")) (Some (py "12")) (Some (py "13")) (Some (py "2023"))
      (Some (py "2")).

(** The rows of [risp] for a list of region codes. *)
Definition risp_row (r : Z) : Risp.t :=
  {| Risp.id := r; Risp.descricao := descricao_of r |}.

(** Every table of [db'] starts with the rows of the same table of [db]. *)
Definition grows (db db' : store) : Prop :=
  risp_tbl db `prefix_of` risp_tbl db'
  ∧ municipio_tbl db `prefix_of` municipio_tbl db'
  ∧ tipo_crime_tbl db `prefix_of` tipo_crime_tbl db'
  ∧ crime_tbl db `prefix_of` crime_tbl db'.

(** Every reference of a stored row leads to a stored row. *)
Definition store_refs (db : store) : Prop :=
  (∀ m, m ∈ municipio_tbl db → Municipio.risp_id m ∈ Risp.id <$> risp_tbl db)
  ∧ (∀ c, c ∈ crime_tbl db →
       Crime.municipio_id c ∈ Municipio.cod_municipio <$> municipio_tbl db
       ∧ Crime.tipo_crime_id c ∈ TipoCrime.id <$> tipo_crime_tbl db).

(** The row of [municipio] for a code: the name and the region of the first
    row of the frame with the code. *)
Definition municipio_row (df : list Row) (cod : pystr) : option Municipio.t :=
  r ← first (λ r, cod_municipio r = cod) df;
  nome ← municipio r;
  Some {| Municipio.cod_municipio := cod; Municipio.nome := nome;
          Municipio.risp_id := risp r |}.

(** The row of [tipo_crime] with a key and a name. *)
Definition tipo_crime_row (id : Z) (nome : pystr) : TipoCrime.t :=
  {| TipoCrime.id := id; TipoCrime.nome := nome |}.

(** The key the store has for a row of the frame, when its type is there. *)
Definition row_key (db : store) (r : Row) : option (pystr * Z * Z * Z) :=
  (λ tipo_crime_id, (cod_municipio r, tipo_crime_id, mes r, ano r))
    <$> tipo_id db (natureza_padronizada r).

(** The key of a row by the dictionary of the loader. *)
Definition dict_key (tipo_crime_dict : gmap cell Z) (r : Row)
    : option (pystr * Z * Z * Z) :=
  (λ tipo_crime_id, (cod_municipio r, tipo_crime_id, mes r, ano r))
    <$> tipo_crime_dict !! natureza_padronizada r.

(** The row has a name, a type and a value of [rmbh]. *)
Definition filled (r : Row) : Prop :=
  is_Some (municipio r) ∧ is_Some (natureza_padronizada r) ∧ is_Some (rmbh r).

#[global] Instance filled_dec r : Decision (filled r).
Proof. unfold filled. apply _. Defined.


(** The sum of a list of integers. *)
Definition zsum (l : list Z) : Z := foldr Z.add 0 l.

(** A sort to instantiate [sort_values] with. *)
Definition stable_sort (l : list (pystr * Z)) : list (pystr * Z) :=
  merge_sort descending l.

(** * Properties *)

(** ** The result monad *)




(** ** The normaliser *)












(** ** Claims on the normaliser *)

(** C3 (the code departs from it).  The claim: a row whose [risp] does not
    parse is dropped silently and the cleaned frame of the other rows is
    returned.  The code: on the frame made of a well-formed row and a row
    whose [risp] is the text abc, the cast of line 50 raises, where the
    frame without that row is cleaned to one row. *)
Theorem C3_unparsable_risp_raises :
  load_and_clean_data [raw_ok; raw_risp_abc] = Raise IntCastingNaNError
  ∧ load_and_clean_data [raw_ok] = Ok [cleaned raw_ok].
Proof. split; vm_compute; reflexivity. Qed.

(** C4 (the code departs from it).  The claim: exactly the rows with an
    absent [registros], [mes], [ano] or [risp] are discarded, and a row with
    an absent [rmbh] stays.  The code: a row with an absent [rmbh] stays and a
    row with an absent [registros] is discarded, but a row with an absent
    [risp] is not discarded: the call raises. *)
Theorem C4_absent_risp_not_discarded :
  load_and_clean_data [raw_rmbh_other; raw_risp_missing] = Raise IntCastingNaNError
  ∧ load_and_clean_data [raw_rmbh_other; raw_registros_abc] = Ok [cleaned raw_rmbh_other]
  ∧ rmbh (cleaned raw_rmbh_other) = None.
Proof. repeat split; vm_compute; reflexivity. Qed.






(** ** The projections *)

Section groupby.
Context (key val : Row → Z).

Lemma groupby_sum_lookup_acc (df : list Row) (g : gmap Z Z) (k : Z) :
  default 0 (foldl (λ g r, <[key r := default 0 (g !! key r) + val r]> g) g df !! k)
  = default 0 (g !! k) + foldr Z.add 0 (val <$> filter (λ r, key r = k) df).
Proof.
  revert g. induction df as [|r df IH]; intros g; simpl.
  - lia.
  - rewrite IH. rewrite filter_cons. destruct (decide (key r = k)) as [->|Hne].
    + rewrite lookup_insert_eq, fmap_cons. simpl. lia.
    + rewrite lookup_insert_ne by done. reflexivity.
Qed.

Lemma groupby_sum_lookup (df : list Row) (k : Z) :
  default 0 (groupby_sum key val df !! k)
  = foldr Z.add 0 (val <$> filter (λ r, key r = k) df).
Proof. unfold groupby_sum. rewrite groupby_sum_lookup_acc, lookup_empty. reflexivity. Qed.

Lemma reindex_groupby_sum (labels : list Z) (df : list Row) :
  reindex labels 0 (groupby_sum key val df)
  = (λ k, (k, foldr Z.add 0 (val <$> filter (λ r, key r = k) df))) <$> labels.
Proof.
  unfold reindex. apply list_fmap_ext. intros _ k _. by rewrite groupby_sum_lookup.
Qed.

End groupby.

Lemma total_none (P : Row → Prop) `{∀ r, Decision (P r)} (df : list Row) :
  (∀ r, r ∈ df → ¬ P r) → total P df = 0.
Proof.
  intros Hno. unfold total.
  replace (filter P df) with (@nil Row); [done|].
  symmetry. induction df as [|r df IH]; [done|].
  rewrite filter_cons. destruct (decide (P r)) as [HP|_].
  - exfalso. eapply Hno; [|done]. left.
  - apply IH. intros r' Hr'. apply Hno. by right.
Qed.

Lemma plot_crimes_por_mes_eq (df : list Row) :
  plot_crimes_por_mes df = (λ m, (m, total (λ r, mes r = m) df)) <$> seqZ 1 12.
Proof. apply reindex_groupby_sum. Qed.

Lemma plot_crimes_por_trimestre_eq (df : list Row) :
  plot_crimes_por_trimestre df = (λ q, (q, total (λ r, trimestre r = q) df)) <$> seqZ 1 4.
Proof. apply reindex_groupby_sum. Qed.

(** C8.  The table by month has the twelve rows of months 1 to 12, in that
    order; the value of a month is the sum of [registros] over the rows of
    that month, which is 0 for a month without rows: when the frame holds
    rows of months 5 and 11 only, the ten other months are there with 0. *)
Theorem C8_by_month_zero_filled :
  (∀ df, plot_crimes_por_mes df
         = (λ m, (m, total (λ r, mes r = m) df)) <$> [1; 2; 3; 4; 5; 6; 7; 8; 9; 10; 11; 12])
  ∧ (∀ df, length (plot_crimes_por_mes df) = 12%nat)
  ∧ (∀ df m, (∀ r, r ∈ df → mes r = 5 ∨ mes r = 11) →
       m ∈ [1; 2; 3; 4; 6; 7; 8; 9; 10; 12] → (m, 0) ∈ plot_crimes_por_mes df)
  ∧ plot_crimes_por_mes
      [row None [] None None 3 5 2023 1; row None [] None None 4 11 2023 1;
       row None [] None None 6 5 2024 2]
    = [(1, 0); (2, 0); (3, 0); (4, 0); (5, 9); (6, 0); (7, 0); (8, 0); (9, 0);
       (10, 0); (11, 4); (12, 0)].
Proof.
  split; [|split; [|split]].
  - intros df. apply plot_crimes_por_mes_eq.
  - intros df. by rewrite plot_crimes_por_mes_eq, length_fmap.
  - intros df m Hdf Hm. rewrite plot_crimes_por_mes_eq.
    rewrite !elem_of_cons, elem_of_nil in Hm.
    apply list_elem_of_fmap. exists m. split.
    + rewrite total_none; [done|]. intros r Hr Heq.
      destruct (Hdf r Hr); lia.
    + apply elem_of_seqZ. lia.
  - vm_compute. reflexivity.
Qed.

Lemma C8_by_month_zero_filled_witness :
  (7, 0) ∈ plot_crimes_por_mes
             [row None [] None None 3 5 2023 1; row None [] None None 4 11 2023 1].
Proof.
  apply (proj1 (proj2 (proj2 C8_by_month_zero_filled))).
  - intros r Hr. apply elem_of_cons in Hr as [->|Hr]; [by left|].
    apply elem_of_cons in Hr as [->|Hr]; [by right|]. by apply elem_of_nil in Hr.
  - do 5 right. left.
Defined.

(** C9.  The table by quarter counts every row in the quarter
    (mes - 1) // 3 + 1 and has the four rows of quarters 1 to 4, in that
    order, a quarter without rows with 0; a row of month 7 counts in
    quarter 3. *)
Theorem C9_by_quarter :
  (∀ r, trimestre r = (mes r - 1) `div` 3 + 1)
  ∧ (∀ df, plot_crimes_por_trimestre df
           = (λ q, (q, total (λ r, (mes r - 1) `div` 3 + 1 = q) df)) <$> [1; 2; 3; 4])
  ∧ (∀ df, length (plot_crimes_por_trimestre df) = 4%nat)
  ∧ (∀ df q, (∀ r, r ∈ df → trimestre r ≠ q) → q ∈ [1; 2; 3; 4] →
       (q, 0) ∈ plot_crimes_por_trimestre df)
  ∧ (∀ r, mes r = 7 → trimestre r = 3)
  ∧ (∀ r, plot_crimes_por_trimestre [r] = [(1, 0); (2, 0); (3, registros r); (4, 0)]
          ↔ (7 ≤ mes r ≤ 9 ∨ registros r = 0))
  ∧ plot_crimes_por_trimestre
      [row None [] None None 3 7 2023 1; row None [] None None 4 1 2023 1;
       row None [] None None 6 9 2024 2; row None [] None None 8 13 2024 2]
    = [(1, 4); (2, 0); (3, 9); (4, 0)].
Proof.
  split; [done|]. split; [|split; [|split; [|split; [|split]]]].
  - intros df. apply plot_crimes_por_trimestre_eq.
  - intros df. by rewrite plot_crimes_por_trimestre_eq, length_fmap.
  - intros df q Hdf Hq. rewrite plot_crimes_por_trimestre_eq.
    rewrite !elem_of_cons, elem_of_nil in Hq.
    apply list_elem_of_fmap. exists q. split; [|apply elem_of_seqZ; lia].
    rewrite total_none; [done|]. intros r Hr Heq. by apply (Hdf r Hr).
  - intros r Hr. unfold trimestre. rewrite Hr. reflexivity.
  - intros r. rewrite plot_crimes_por_trimestre_eq. unfold total, trimestre.
    change (seqZ 1 4) with [1; 2; 3; 4]. simpl.
    rewrite !filter_cons, !filter_nil.
    assert (∀ q, (mes r - 1) `div` 3 + 1 = q ↔ 3 * q - 2 ≤ mes r ≤ 3 * q) as Hq.
    { intros q. split; intros Hq.
      - subst q. pose proof (Z.div_mod (mes r - 1) 3).
        pose proof (Z.mod_pos_bound (mes r - 1) 3). lia.
      - assert ((mes r - 1) `div` 3 = q - 1); [|lia].
        symmetry. apply (Z.div_unique _ _ _ (mes r - 1 - 3 * (q - 1))); lia. }
    repeat case_decide; simpl; rewrite ?Hq in *; split; intros Heq;
      try injection Heq as ?; try f_equal; try lia; repeat f_equal; try lia.
  - vm_compute. reflexivity.
Qed.

Lemma C9_by_quarter_witness :
  trimestre (row None [] None None 3 7 2023 1) = 3
  ∧ (2, 0) ∈ plot_crimes_por_trimestre [row None [] None None 3 7 2023 1].
Proof.
  split.
  - apply (proj1 (proj2 (proj2 (proj2 (proj2 C9_by_quarter))))). reflexivity.
  - apply (proj1 (proj2 (proj2 (proj2 C9_by_quarter)))).
    + intros r Hr. apply elem_of_cons in Hr as [->|Hr]; [by vm_compute|].
      by apply elem_of_nil in Hr.
    + right. left.
Defined.

(** ** Queries, [unique] and loops *)

Section first.
Context {A : Type} (P : A → Prop) `{∀ x, Decision (P x)}.

Lemma first_cons (x : A) (l : list A) :
  first P (x :: l) = if decide (P x) then Some x else first P l.
Proof.
  unfold first. simpl. destruct (decide (P x)); [done|].
  by destruct (list_find P l) as [[i y]|].
Qed.

Lemma first_None (l : list A) : first P l = None ↔ ∀ x, x ∈ l → ¬ P x.
Proof.
  induction l as [|x l IH]; [by split; [intros _ y Hy; apply elem_of_nil in Hy|]|].
  rewrite first_cons. destruct (decide (P x)) as [Hx|Hx].
  - split; [done|]. intros Hno. destruct (Hno x); [left|done].
  - rewrite IH. split.
    + intros Hno y Hy. apply elem_of_cons in Hy as [->|Hy]; auto.
    + intros Hno y Hy. apply Hno. by right.
Qed.

Lemma first_Some (l : list A) (x : A) : first P l = Some x → x ∈ l ∧ P x.
Proof.
  induction l as [|y l IH]; [done|].
  rewrite first_cons. destruct (decide (P y)) as [Hy|Hy].
  - intros [= <-]. split; [left|done].
  - intros Hx. destruct (IH Hx). split; [by right|done].
Qed.

Lemma first_is_Some (l : list A) (x : A) : x ∈ l → P x → is_Some (first P l).
Proof.
  intros Hx HP. destruct (first P l) eqn:Hf; [done|].
  rewrite first_None in Hf. by destruct (Hf x).
Qed.

Lemma first_app_l (l k : list A) (x : A) :
  first P l = Some x → first P (l ++ k) = Some x.
Proof.
  induction l as [|y l IH]; [done|].
  rewrite <-app_comm_cons, !first_cons. destruct (decide (P y)); auto.
Qed.

Lemma first_app_r (l k : list A) :
  first P l = None → first P (l ++ k) = first P k.
Proof.
  induction l as [|y l IH]; [done|].
  rewrite <-app_comm_cons, !first_cons. destruct (decide (P y)); [done|auto].
Qed.

End first.

Lemma first_ext {A} (P Q : A → Prop) `{∀ x, Decision (P x)} `{∀ x, Decision (Q x)}
    (l : list A) :
  (∀ x, x ∈ l → P x ↔ Q x) → first P l = first Q l.
Proof.
  induction l as [|x l IH]; [done|]. intros HPQ.
  rewrite !first_cons. rewrite IH by (intros y Hy; apply HPQ; by right).
  destruct (decide (P x)) as [HP|HP], (decide (Q x)) as [HQ|HQ]; try done.
  - destruct HQ. apply HPQ; [left|done].
  - destruct HP. apply HPQ; [left|done].
Qed.

Lemma first_fmap {A B} (f : A → B) (P : B → Prop) `{∀ y, Decision (P y)} (l : list A) :
  first P (f <$> l) = f <$> first (λ x, P (f x)) l.
Proof.
  induction l as [|x l IH]; [done|].
  rewrite fmap_cons, !first_cons. destruct (decide (P (f x))); [done|auto].
Qed.

Section unique.
Context `{EqDecision A}.

Lemma elem_of_unique_from (seen l : list A) (x : A) :
  x ∈ unique_from seen l ↔ x ∈ l ∧ x ∉ seen.
Proof.
  revert seen. induction l as [|y l IH]; intros seen; simpl.
  - rewrite elem_of_nil. tauto.
  - destruct (decide (y ∈ seen)) as [Hy|Hy].
    + rewrite IH, elem_of_cons. split; [tauto|]. intros [[->|?] ?]; tauto.
    + rewrite !elem_of_cons, IH, elem_of_cons. split.
      * intros [->|[? ?]]; tauto.
      * intros [[->|?] ?]; [tauto|]. destruct (decide (x = y)); tauto.
Qed.

Lemma elem_of_unique (l : list A) (x : A) : x ∈ unique l ↔ x ∈ l.
Proof.
  unfold unique. rewrite elem_of_unique_from, elem_of_nil. tauto.
Qed.

Lemma first_unique_from (P : A → Prop) `{∀ x, Decision (P x)} (seen l : list A) :
  first P (unique_from seen l) = first (λ x, P x ∧ x ∉ seen) l.
Proof.
  revert seen. induction l as [|y l IH]; intros seen; simpl; [done|].
  destruct (decide (y ∈ seen)) as [Hy|Hy].
  - rewrite IH, (first_cons (λ x, P x ∧ x ∉ seen)).
    destruct (decide (P y ∧ y ∉ seen)); tauto.
  - rewrite !first_cons. destruct (decide (P y)) as [HP|HP].
    + by rewrite decide_True.
    + rewrite decide_False by tauto. rewrite IH. apply first_ext.
      intros x _. rewrite elem_of_cons. split; [tauto|].
      intros [? ?]. split; [done|]. intros [->|?]; tauto.
Qed.

(** The first value of [unique l] that satisfies [P] is the first of [l]. *)
Lemma first_unique (P : A → Prop) `{∀ x, Decision (P x)} (l : list A) :
  first P (unique l) = first P l.
Proof.
  unfold unique. rewrite first_unique_from. apply first_ext.
  intros x _. rewrite elem_of_nil. tauto.
Qed.

End unique.

Section for_each.
Context {A S : Type} (body : A → S → result S).


(** A property every successful turn of the body preserves holds after the
    loop. *)
Lemma for_each_preserves (I : S → Prop) (l : list A) (s s' : S) :
  (∀ x s s', I s → body x s = Ok s' → I s') →
  I s → for_each body l s = Ok s' → I s'.
Proof.
  intros Hbody. revert s. induction l as [|x l IH]; intros s Hs; simpl.
  - by intros [= <-].
  - destruct (body x s) as [s1|e] eqn:Hx; simpl; [|done]. eauto.
Qed.

(** The same, for a property of the rows done so far and the state. *)
Lemma for_each_invariant (I : list A → S → Prop) (l : list A) (s s' : S) :
  (∀ done x s s', I done s → body x s = Ok s' → I (done ++ [x]) s') →
  I [] s → for_each body l s = Ok s' → I l s'.
Proof.
  intros Hbody. change l with ([] ++ l) at 2. generalize (@nil A) as done.
  revert s. induction l as [|x l IH]; intros s done Hs; simpl.
  - intros [= <-]. by rewrite app_nil_r.
  - destruct (body x s) as [s1|e] eqn:Hx; simpl; [|done].
    intros Hl. rewrite cons_middle, app_assoc. eauto.
Qed.

(** A body that leaves the state alone on these rows makes the loop do
    nothing. *)
Lemma for_each_noop (l : list A) (s : S) :
  (∀ x, x ∈ l → body x s = Ok s) → for_each body l s = Ok s.
Proof.
  induction l as [|x l IH]; [done|]. intros Hl. simpl.
  rewrite Hl by left. simpl. apply IH. intros y Hy. apply Hl. by right.
Qed.

(** The exception of a loop is the exception of one turn of its body, in a
    state the earlier turns led to. *)
Lemma for_each_Raise (I : S → Prop) (l : list A) (s : S) (e : exn) :
  (∀ x s s', I s → body x s = Ok s' → I s') →
  I s → for_each body l s = Raise e →
  ∃ x s1, x ∈ l ∧ I s1 ∧ body x s1 = Raise e.
Proof.
  intros Hbody. revert s. induction l as [|x l IH]; intros s Hs; simpl; [done|].
  destruct (body x s) as [s1|e1] eqn:Hx; simpl.
  - intros Hl. destruct (IH s1) as (y & s2 & Hy & Hs2 & He); [eauto|done|].
    exists y, s2. split; [by right|done].
  - intros [= <-]. exists x, s. split; [left|done].
Qed.

End for_each.

(** ** The steps of the loader *)

(** Unfolds one turn of a loop body in [H] into its cases. *)
Ltac inv_body H :=
  unfold insert_risp, insert_municipio, insert_crime,
    add_risp, add_municipio, add_crime, add_tipo_crime in H;
  repeat (case_match; simplify_eq);
  simplify_eq; simpl in *.

Lemma query_risp_Some (db : store) (r : Z) :
  is_Some (query_risp db r) ↔ r ∈ Risp.id <$> risp_tbl db.
Proof.
  unfold query_risp. split.
  - intros [x Hx]. apply first_Some in Hx as [Hx <-]. by apply list_elem_of_fmap_2.
  - intros Hr. apply list_elem_of_fmap in Hr as (x & -> & Hx). by eapply first_is_Some.
Qed.

Lemma query_municipio_Some (db : store) (cod : pystr) :
  is_Some (query_municipio db cod) ↔ cod ∈ Municipio.cod_municipio <$> municipio_tbl db.
Proof.
  unfold query_municipio. split.
  - intros [x Hx]. apply first_Some in Hx as [Hx <-]. by apply list_elem_of_fmap_2.
  - intros Hr. apply list_elem_of_fmap in Hr as (x & -> & Hx). by eapply first_is_Some.
Qed.

Lemma query_tipo_crime_Some (db : store) (nome : pystr) :
  is_Some (query_tipo_crime db (Some nome)) ↔ nome ∈ TipoCrime.nome <$> tipo_crime_tbl db.
Proof.
  unfold query_tipo_crime. split.
  - intros [x Hx]. apply first_Some in Hx as [Hx [= <-]]. by apply list_elem_of_fmap_2.
  - intros Hr. apply list_elem_of_fmap in Hr as (x & -> & Hx). by eapply first_is_Some.
Qed.

Lemma query_tipo_crime_missing (db : store) : query_tipo_crime db None = None.
Proof. unfold query_tipo_crime. apply first_None. intros x _. done. Qed.

Lemma query_crime_Some (db : store) (cod : pystr) (tipo_crime_id mes ano : Z) :
  is_Some (query_crime db cod (Some tipo_crime_id) mes ano)
  ↔ (cod, tipo_crime_id, mes, ano) ∈ Crime.key <$> crime_tbl db.
Proof.
  unfold query_crime. split.
  - intros [x Hx]. apply first_Some in Hx as [Hx (<- & [= <-] & <- & <-)].
    by apply (list_elem_of_fmap_2 Crime.key).
  - intros Hr. apply list_elem_of_fmap in Hr as (x & [= -> -> -> ->] & Hx).
    by eapply first_is_Some.
Qed.

Lemma query_crime_unresolved (db : store) (cod : pystr) (mes ano : Z) :
  query_crime db cod None mes ano = None.
Proof. unfold query_crime. apply first_None. intros x _ (_ & ? & _). done. Qed.

(** *** Step 1: [risp] *)

Lemma insert_risp_total (r : Z) (db : store) : is_Some (query_risp db r) ∨
  insert_risp r db = add_risp db r (descricao_of r) ∧ r ∉ Risp.id <$> risp_tbl db.
Proof.
  unfold insert_risp. destruct (query_risp db r) eqn:Hq; [left; eauto|right].
  split; [done|]. rewrite <-query_risp_Some, Hq. by intros [? ?].
Qed.

Lemma risp_step_frame (l : list Z) (db db' : store) :
  for_each insert_risp l db = Ok db' →
  municipio_tbl db' = municipio_tbl db ∧ tipo_crime_tbl db' = tipo_crime_tbl db
  ∧ crime_tbl db' = crime_tbl db.
Proof.
  apply (for_each_preserves insert_risp
    (λ s, municipio_tbl s = municipio_tbl db ∧ tipo_crime_tbl s = tipo_crime_tbl db
          ∧ crime_tbl s = crime_tbl db)); [|done].
  intros r s s' Hs Hr. inv_body Hr; done.
Qed.

Lemma risp_step_cover (l : list Z) (db db' : store) :
  for_each insert_risp l db = Ok db' →
  ∀ r, r ∈ l → r ∈ Risp.id <$> risp_tbl db'.
Proof.
  apply (for_each_invariant insert_risp (λ done s, ∀ r, r ∈ done → r ∈ Risp.id <$> risp_tbl s)).
  - intros done r s s' Hdone Hr x Hx. apply elem_of_app in Hx as [Hx|Hx].
    + specialize (Hdone x Hx). inv_body Hr; [done|].
      rewrite fmap_app. apply elem_of_app. by left.
    + apply list_elem_of_singleton in Hx as ->.
      destruct (query_risp s r) eqn:Hq.
      * unfold insert_risp in Hr. rewrite Hq in Hr. simplify_eq.
        apply query_risp_Some. by rewrite Hq.
      * inv_body Hr. rewrite fmap_app. apply elem_of_app. right. left.
  - intros r Hr. by apply elem_of_nil in Hr.
Qed.

Lemma risp_step_noop (l : list Z) (db : store) :
  (∀ r, r ∈ l → r ∈ Risp.id <$> risp_tbl db) → for_each insert_risp l db = Ok db.
Proof.
  intros Hl. apply for_each_noop. intros r Hr.
  apply Hl, query_risp_Some in Hr as [x Hx]. unfold insert_risp. by rewrite Hx.
Qed.

(** The first step never raises. *)
Lemma risp_step_Ok (l : list Z) (db : store) : ∃ db', for_each insert_risp l db = Ok db'.
Proof.
  revert db. induction l as [|r l IH]; intros db; simpl; [eauto|].
  destruct (insert_risp_total r db) as [[x Hx]|[-> Hr]].
  - unfold insert_risp. rewrite Hx. simpl. apply IH.
  - unfold add_risp. rewrite decide_False by done. simpl. apply IH.
Qed.

(** *** Step 2: [municipio] *)

Lemma municipio_step_frame (l : list (pystr * cell * Z)) (db db' : store) :
  for_each insert_municipio l db = Ok db' →
  risp_tbl db' = risp_tbl db ∧ tipo_crime_tbl db' = tipo_crime_tbl db
  ∧ crime_tbl db' = crime_tbl db.
Proof.
  apply (for_each_preserves insert_municipio
    (λ s, risp_tbl s = risp_tbl db ∧ tipo_crime_tbl s = tipo_crime_tbl db
          ∧ crime_tbl s = crime_tbl db)); [|done].
  intros r s s' Hs Hr. inv_body Hr; done.
Qed.

Lemma municipio_step_cover (l : list (pystr * cell * Z)) (db db' : store) :
  for_each insert_municipio l db = Ok db' →
  ∀ t, t ∈ l → t.1.1 ∈ Municipio.cod_municipio <$> municipio_tbl db'.
Proof.
  apply (for_each_invariant insert_municipio
    (λ done s, ∀ t, t ∈ done → t.1.1 ∈ Municipio.cod_municipio <$> municipio_tbl s)).
  - intros done [[cod nome] r] s s' Hdone Hr x Hx. apply elem_of_app in Hx as [Hx|Hx].
    + specialize (Hdone x Hx). inv_body Hr; [done|].
      rewrite fmap_app. apply elem_of_app. by left.
    + apply list_elem_of_singleton in Hx as ->. simpl.
      destruct (query_municipio s cod) eqn:Hq.
      * unfold insert_municipio in Hr. rewrite Hq in Hr. simplify_eq.
        apply query_municipio_Some. by rewrite Hq.
      * inv_body Hr. rewrite fmap_app. apply elem_of_app. right. left.
  - intros r Hr. by apply elem_of_nil in Hr.
Qed.

Lemma municipio_step_noop (l : list (pystr * cell * Z)) (db : store) :
  (∀ t, t ∈ l → t.1.1 ∈ Municipio.cod_municipio <$> municipio_tbl db) →
  for_each insert_municipio l db = Ok db.
Proof.
  intros Hl. apply for_each_noop. intros [[cod nome] r] Hr.
  apply Hl, query_municipio_Some in Hr as [x Hx]. unfold insert_municipio.
  simpl in Hx. by rewrite Hx.
Qed.

(** *** Step 3: [tipo_crime] *)

Lemma query_tipo_crime_mono (db db' : store) (new : list TipoCrime.t) (nome : cell)
    (x : TipoCrime.t) :
  tipo_crime_tbl db' = tipo_crime_tbl db ++ new →
  query_tipo_crime db nome = Some x → query_tipo_crime db' nome = Some x.
Proof. unfold query_tipo_crime. intros ->. apply first_app_l. Qed.

Lemma query_tipo_crime_new (db db' : store) (new : list TipoCrime.t) (t : TipoCrime.t) :
  tipo_crime_tbl db' = tipo_crime_tbl db ++ t :: new →
  query_tipo_crime db (Some (TipoCrime.nome t)) = None →
  query_tipo_crime db' (Some (TipoCrime.nome t)) = Some t.
Proof.
  unfold query_tipo_crime. intros -> Hq.
  rewrite first_app_r by done. rewrite first_cons. by rewrite decide_True.
Qed.

(** The third step touches [tipo_crime] only, and only appends to it. *)
Lemma insert_tipos_frame (l : list cell) (db db' : store) (d : gmap cell Z)
    (res : result (gmap cell Z)) :
  insert_tipos l db d = (db', res) →
  risp_tbl db' = risp_tbl db ∧ municipio_tbl db' = municipio_tbl db
  ∧ crime_tbl db' = crime_tbl db
  ∧ ∃ new, tipo_crime_tbl db' = tipo_crime_tbl db ++ new.
Proof.
  revert db d. induction l as [|n l IH]; intros db d; simpl.
  - intros [= <- <-]. repeat split. exists []. by rewrite app_nil_r.
  - destruct (query_tipo_crime db n) as [ex|] eqn:Hq; [apply IH|].
    destruct (add_tipo_crime db n) as [[db1 id]|e] eqn:Hadd.
    + intros Hl. apply IH in Hl as (Hr & Hm & Hc & new & Ht).
      inv_body Hadd. rewrite Hr, Hm, Hc, Ht. repeat split.
      eexists. by rewrite <-app_assoc.
    + intros [= <- <-]. repeat split. exists []. by rewrite app_nil_r.
Qed.

(** After the third step every type of the list is in the table, and the
    dictionary maps it to the key of the first row of that name. *)
Lemma insert_tipos_dict (l : list cell) (db db' : store) (d d' : gmap cell Z) :
  insert_tipos l db d = (db', Ok d') →
  (∀ n, n ∈ l → is_Some (query_tipo_crime db' n))
  ∧ (∀ n, d' !! n = if decide (n ∈ l)
                    then TipoCrime.id <$> query_tipo_crime db' n else d !! n).
Proof.
  revert db d. induction l as [|n l IH]; intros db d Hl; simpl in Hl.
  - injection Hl as <- <-. split; [intros n Hn; by apply elem_of_nil in Hn|].
    intros n. rewrite decide_False; [done|]. apply not_elem_of_nil.
  - assert (∃ d1 db1 new x, insert_tipos l db1 d1 = (db', Ok d')
              ∧ d1 = <[n := TipoCrime.id x]> d
              ∧ tipo_crime_tbl db' = tipo_crime_tbl db1 ++ new
              ∧ query_tipo_crime db1 n = Some x)
      as (d1 & db1 & new & x & Hl' & -> & Hnew & Hq).
    { destruct (query_tipo_crime db n) as [ex|] eqn:Hq.
      - pose proof (insert_tipos_frame _ _ _ _ _ Hl) as (_ & _ & _ & new & Hnew).
        by exists (<[n := TipoCrime.id ex]> d), db, new, ex.
      - destruct (add_tipo_crime db n) as [[db1 id]|e] eqn:Hadd; [|done].
        pose proof (insert_tipos_frame _ _ _ _ _ Hl) as (_ & _ & _ & new & Hnew).
        unfold add_tipo_crime in Hadd. destruct n as [s|]; [|done].
        case_decide; [done|]. injection Hadd as <- <-.
        eexists _, _, new, {| TipoCrime.id := tipo_crime_seq db; TipoCrime.nome := s |}.
        split; [done|]. split; [done|]. split; [done|].
        unfold query_tipo_crime in *. simpl.
        rewrite first_app_r by done. by rewrite first_cons, decide_True. }
    pose proof (query_tipo_crime_mono _ _ _ _ _ Hnew Hq) as Hq'.
    apply IH in Hl' as [Hin Hd]. split.
    + intros n' Hn'. apply elem_of_cons in Hn' as [->|Hn']; [by rewrite Hq'|auto].
    + intros n'. rewrite Hd. destruct (decide (n' ∈ l)) as [Hn'|Hn'].
      { rewrite decide_True; [done|]. by right. }
      destruct (decide (n' = n)) as [->|Hne].
      { rewrite decide_True by left. by rewrite lookup_insert_eq, Hq'. }
      rewrite decide_False by (rewrite elem_of_cons; tauto).
      by rewrite lookup_insert_ne.
Qed.

(** On a table that holds every type of the list the third step inserts
    nothing. *)
Lemma insert_tipos_noop (l : list cell) (db : store) (d : gmap cell Z) :
  (∀ n, n ∈ l → is_Some (query_tipo_crime db n)) →
  ∃ d', insert_tipos l db d = (db, Ok d').
Proof.
  revert d. induction l as [|n l IH]; intros d Hl; simpl; [eauto|].
  destruct (Hl n) as [ex ->]; [left|].
  apply IH. intros n' Hn'. apply Hl. by right.
Qed.

(** When the third step raises, running it again on the store it left
    raises the same exception and leaves the same store. *)
Lemma insert_tipos_rerun_Raise (l : list cell) (db db' : store) (d d0 : gmap cell Z)
    (e : exn) :
  insert_tipos l db d = (db', Raise e) → insert_tipos l db' d0 = (db', Raise e).
Proof.
  revert db d d0. induction l as [|n l IH]; intros db d d0; simpl; [done|].
  destruct (query_tipo_crime db n) as [ex|] eqn:Hq.
  - intros Hl. pose proof (insert_tipos_frame _ _ _ _ _ Hl) as (_ & _ & _ & new & Hnew).
    rewrite (query_tipo_crime_mono _ _ _ _ _ Hnew Hq). eauto.
  - destruct (add_tipo_crime db n) as [[db1 id]|e'] eqn:Hadd.
    + intros Hl. pose proof (insert_tipos_frame _ _ _ _ _ Hl) as (_ & _ & _ & new & Hnew).
      assert (∃ s, n = Some s ∧ tipo_crime_tbl db' =
                tipo_crime_tbl db ++ {| TipoCrime.id := id; TipoCrime.nome := s |} :: new)
        as (s & -> & Hnew').
      { inv_body Hadd. eexists. split; [done|]. by rewrite Hnew, <-app_assoc. }
      pose proof (query_tipo_crime_new _ _ _ _ Hnew' Hq) as Hq'. simpl in Hq'.
      rewrite Hq'. eauto.
    + intros [= <- <-]. by rewrite Hq, Hadd.
Qed.

(** A missing type makes the third step raise. *)
Lemma insert_tipos_missing (l : list cell) (db : store) (d : gmap cell Z) :
  None ∈ l → ∃ e, (insert_tipos l db d).2 = Raise e.
Proof.
  revert db d. induction l as [|n l IH]; intros db d Hl; simpl.
  - by apply elem_of_nil in Hl.
  - destruct n as [s|].
    + assert (None ∈ l) as Hl' by (apply elem_of_cons in Hl as [?|?]; done).
      destruct (query_tipo_crime db (Some s)); [by apply IH|].
      destruct (add_tipo_crime db (Some s)) as [[db1 id]|e]; [by apply IH|].
      simpl. eauto.
    + rewrite query_tipo_crime_missing. simpl. eauto.
Qed.

(** *** Step 4: [crime] *)

Lemma crime_step_frame (d : gmap cell Z) (l : list Row) (db db' : store) :
  for_each (insert_crime d) l db = Ok db' →
  risp_tbl db' = risp_tbl db ∧ municipio_tbl db' = municipio_tbl db
  ∧ tipo_crime_tbl db' = tipo_crime_tbl db.
Proof.
  apply (for_each_preserves (insert_crime d)
    (λ s, risp_tbl s = risp_tbl db ∧ municipio_tbl s = municipio_tbl db
          ∧ tipo_crime_tbl s = tipo_crime_tbl db)); [|done].
  intros r s s' Hs Hr. inv_body Hr; done.
Qed.

(** A turn of the fourth loop leaves at least one row in [crime]. *)
Lemma insert_crime_nonempty (d : gmap cell Z) (r : Row) (db db' : store) :
  insert_crime d r db = Ok db' → crime_tbl db' ≠ [].
Proof.
  unfold insert_crime.
  destruct (query_crime db _ _ _ _) as [c|] eqn:Hq.
  - intros [= <-]. apply first_Some in Hq as [Hc _]. intros Hnil.
    rewrite Hnil in Hc. by apply elem_of_nil in Hc.
  - intros Hadd. inv_body Hadd. intros Hnil. by apply app_eq_nil in Hnil as [_ ?].
Qed.

Lemma crime_step_nonempty (d : gmap cell Z) (l : list Row) (db db' : store) :
  for_each (insert_crime d) l db = Ok db' → l ≠ [] → crime_tbl db' ≠ [].
Proof.
  destruct l as [|r l]; [done|]. simpl. intros Hl _.
  destruct (insert_crime d r db) as [db1|e] eqn:Hr; [|done]. simpl in Hl.
  apply insert_crime_nonempty in Hr. revert Hl Hr. clear.
  revert db1. induction l as [|r l IH]; intros db1; simpl.
  - by intros [= <-].
  - destruct (insert_crime d r db1) as [db2|e] eqn:Hr; [|done]. simpl.
    intros Hl _. apply insert_crime_nonempty in Hr. eauto.
Qed.

(** A row whose type the dictionary does not resolve is not written: the
    turn raises. *)
Lemma insert_crime_unresolved (d : gmap cell Z) (r : Row) (db : store) :
  d !! natureza_padronizada r = None →
  insert_crime d r db = Raise (IntegrityError NotNull).
Proof.
  intros Hd. unfold insert_crime. rewrite Hd, query_crime_unresolved.
  unfold add_crime. by destruct (rmbh r).
Qed.

(** Every row the fourth step writes refers to a row of [municipio] and a
    row of [tipo_crime]. *)
Lemma crime_step_resolved (d : gmap cell Z) (l : list Row) (db db' : store) :
  for_each (insert_crime d) l db = Ok db' →
  ∀ c, c ∈ crime_tbl db' → c ∈ crime_tbl db
    ∨ (Crime.municipio_id c ∈ Municipio.cod_municipio <$> municipio_tbl db'
       ∧ Crime.tipo_crime_id c ∈ TipoCrime.id <$> tipo_crime_tbl db').
Proof.
  intros Hl. pose proof (crime_step_frame _ _ _ _ Hl) as (_ & -> & ->).
  revert Hl. apply (for_each_preserves (insert_crime d)
    (λ s, (municipio_tbl s = municipio_tbl db ∧ tipo_crime_tbl s = tipo_crime_tbl db)
          ∧ ∀ c, c ∈ crime_tbl s → c ∈ crime_tbl db
      ∨ (Crime.municipio_id c ∈ Municipio.cod_municipio <$> municipio_tbl db
         ∧ Crime.tipo_crime_id c ∈ TipoCrime.id <$> tipo_crime_tbl db))); [|by auto].
  intros r s s' [[Hm Ht] Hs] Hr. inv_body Hr; [done|]. split; [done|].
  intros c Hc. apply elem_of_app in Hc as [Hc|Hc]; [auto|].
  apply list_elem_of_singleton in Hc as ->. simpl. right. by rewrite <-Hm, <-Ht.
Qed.

(** After the fourth step, started on an empty table, every stored row
    carries the values of the first row of the frame that has its key. *)
Lemma crime_step_first (d : gmap cell Z) (l : list Row) (db db' : store) :
  crime_tbl db = [] →
  for_each (insert_crime d) l db = Ok db' →
  ∀ c, c ∈ crime_tbl db' →
    ∃ r0, first (matches d c) l = Some r0
          ∧ registros r0 = Crime.registros c ∧ rmbh r0 = Some (Crime.rmbh c).
Proof.
  intros Hnil Hl.
  cut ((∀ c, c ∈ crime_tbl db' →
          ∃ r0, first (matches d c) l = Some r0
                ∧ registros r0 = Crime.registros c ∧ rmbh r0 = Some (Crime.rmbh c))
       ∧ (∀ r, r ∈ l → is_Some (query_crime db' (cod_municipio r)
                                   (d !! natureza_padronizada r) (mes r) (ano r)))).
  { tauto. }
  revert Hl. apply (for_each_invariant (insert_crime d) (λ done s,
    (∀ c, c ∈ crime_tbl s →
       ∃ r0, first (matches d c) done = Some r0
             ∧ registros r0 = Crime.registros c ∧ rmbh r0 = Some (Crime.rmbh c))
    ∧ (∀ r, r ∈ done → is_Some (query_crime s (cod_municipio r)
                                  (d !! natureza_padronizada r) (mes r) (ano r))))).
  - intros done x s s' [Hrows Hkeys] Hx. unfold insert_crime in Hx.
    destruct (query_crime s _ _ _ _) as [c0|] eqn:Hq.
    + injection Hx as <-. split.
      * intros c Hc. destruct (Hrows c Hc) as (r0 & Hr0 & ?).
        exists r0. split; [by apply first_app_l|done].
      * intros r Hr. apply elem_of_app in Hr as [Hr|Hr]; [auto|].
        apply list_elem_of_singleton in Hr as ->. by rewrite Hq.
    + unfold add_crime in Hx.
      destruct (rmbh x) as [b|] eqn:Hb; [|done].
      destruct (d !! natureza_padronizada x) as [tid|] eqn:Hd; [|done].
      case_decide; [done|]. case_decide; [|done]. injection Hx as <-. simpl.
      split.
      * intros c Hc. apply elem_of_app in Hc as [Hc|Hc].
        { destruct (Hrows c Hc) as (r0 & Hr0 & ?).
          exists r0. split; [by apply first_app_l|done]. }
        apply list_elem_of_singleton in Hc as ->. exists x.
        split; [|by rewrite Hb]. rewrite first_app_r.
        { rewrite first_cons, decide_True; [done|]. by unfold matches. }
        apply first_None. intros r Hr (Hcod & Htid & Hmes & Hano). simpl in *.
        destruct (Hkeys r Hr) as [c' Hc']. rewrite Hcod, Htid, Hmes, Hano in Hc'.
        congruence.
      * intros r Hr. unfold query_crime. simpl.
        apply elem_of_app in Hr as [Hr|Hr].
        { destruct (Hkeys r Hr) as [c' Hc']. exists c'. by apply first_app_l. }
        apply list_elem_of_singleton in Hr as ->. rewrite Hd.
        rewrite first_app_r by done. rewrite first_cons, decide_True; [done|]. done.
  - rewrite Hnil. split; [intros c Hc; by apply elem_of_nil in Hc|].
    intros r Hr. by apply elem_of_nil in Hr.
Qed.

(** *** The first values of a municipality *)

Lemma municipio_step_first (l : list (pystr * cell * Z)) (db db' : store) :
  municipio_tbl db = [] →
  for_each insert_municipio l db = Ok db' →
  ∀ m, m ∈ municipio_tbl db' →
    ∃ t, first (λ t, t.1.1 = Municipio.cod_municipio m) l = Some t
         ∧ t.1.2 = Some (Municipio.nome m) ∧ t.2 = Municipio.risp_id m.
Proof.
  intros Hnil Hl.
  cut ((∀ m, m ∈ municipio_tbl db' →
          ∃ t, first (λ t, t.1.1 = Municipio.cod_municipio m) l = Some t
               ∧ t.1.2 = Some (Municipio.nome m) ∧ t.2 = Municipio.risp_id m)
       ∧ (∀ t, t ∈ l → is_Some (query_municipio db' t.1.1))).
  { tauto. }
  revert Hl. apply (for_each_invariant insert_municipio (λ done s,
    (∀ m, m ∈ municipio_tbl s →
       ∃ t, first (λ t, t.1.1 = Municipio.cod_municipio m) done = Some t
            ∧ t.1.2 = Some (Municipio.nome m) ∧ t.2 = Municipio.risp_id m)
    ∧ (∀ t, t ∈ done → is_Some (query_municipio s t.1.1)))).
  - intros done [[cod nome] r] s s' [Hrows Hkeys] Hx. unfold insert_municipio in Hx.
    destruct (query_municipio s cod) as [m0|] eqn:Hq.
    + injection Hx as <-. split.
      * intros m Hm. destruct (Hrows m Hm) as (t & Ht & ?).
        exists t. split; [by apply first_app_l|done].
      * intros t Ht. apply elem_of_app in Ht as [Ht|Ht]; [auto|].
        apply list_elem_of_singleton in Ht as ->. simpl. by rewrite Hq.
    + unfold add_municipio in Hx. destruct nome as [nome|]; [|done].
      case_decide; [done|]. case_decide; [|done]. injection Hx as <-. simpl.
      split.
      * intros m Hm. apply elem_of_app in Hm as [Hm|Hm].
        { destruct (Hrows m Hm) as (t & Ht & ?).
          exists t. split; [by apply first_app_l|done]. }
        apply list_elem_of_singleton in Hm as ->. exists (cod, Some nome, r).
        split; [|done]. rewrite first_app_r.
        { by rewrite first_cons, decide_True. }
        apply first_None. intros t Ht Hcod. simpl in Hcod.
        destruct (Hkeys t Ht) as [m' Hm']. congruence.
      * intros t Ht. unfold query_municipio. simpl.
        apply elem_of_app in Ht as [Ht|Ht].
        { destruct (Hkeys t Ht) as [m' Hm']. exists m'. by apply first_app_l. }
        apply list_elem_of_singleton in Ht as ->. simpl.
        rewrite first_app_r by done. by rewrite first_cons, decide_True.
  - rewrite Hnil. split; [intros m Hm; by apply elem_of_nil in Hm|].
    intros t Ht. by apply elem_of_nil in Ht.
Qed.

(** *** Uniqueness of the keys *)

Lemma NoDup_snoc {A} (l : list A) (x : A) : NoDup l → x ∉ l → NoDup (l ++ [x]).
Proof.
  intros Hl Hx. apply NoDup_app. split; [done|]. split; [|apply NoDup_singleton].
  intros y Hy Hyx. apply list_elem_of_singleton in Hyx as ->. done.
Qed.

Lemma insert_risp_unique (r : Z) (db db' : store) :
  store_unique db → insert_risp r db = Ok db' → store_unique db'.
Proof.
  intros (Hr & Hm & Ht & Hc) Hx. inv_body Hx; [done|].
  repeat split; try done. simpl. rewrite fmap_app. by apply NoDup_snoc.
Qed.

Lemma insert_municipio_unique (t : pystr * cell * Z) (db db' : store) :
  store_unique db → insert_municipio t db = Ok db' → store_unique db'.
Proof.
  intros (Hr & Hm & Ht & Hc) Hx. inv_body Hx; [done|].
  repeat split; try done. simpl. rewrite fmap_app. by apply NoDup_snoc.
Qed.

Lemma insert_crime_unique (d : gmap cell Z) (r : Row) (db db' : store) :
  store_unique db → insert_crime d r db = Ok db' → store_unique db'.
Proof.
  intros (Hr & Hm & Ht & Hc) Hx. inv_body Hx; [done|].
  repeat split; try done. simpl. rewrite fmap_app. by apply NoDup_snoc.
Qed.

Lemma insert_tipos_unique (l : list cell) (db db' : store) (d : gmap cell Z)
    (res : result (gmap cell Z)) :
  store_unique db → insert_tipos l db d = (db', res) → store_unique db'.
Proof.
  revert db d. induction l as [|n l IH]; intros db d Hdb; simpl.
  - by intros [= <- <-].
  - destruct (query_tipo_crime db n) as [ex|]; [by apply IH|].
    destruct (add_tipo_crime db n) as [[db1 id]|e] eqn:Hadd.
    + apply IH. destruct Hdb as (Hr & Hm & Ht & Hc). inv_body Hadd.
      repeat split; try done. simpl. rewrite fmap_app. by apply NoDup_snoc.
    + by intros [= <- <-].
Qed.

(** The loader keeps the keys of the four tables unique, however it ends. *)
Lemma create_normalized_database_unique (db : store) (df : list Row) :
  store_unique db → store_unique (create_normalized_database db df).1.
Proof.
  intros Hdb. unfold create_normalized_database.
  case_bool_decide; [done|].
  destruct (for_each insert_risp _ db) as [db1|e] eqn:H1; [|done].
  assert (store_unique db1) as Hdb1.
  { revert H1. apply for_each_preserves; [|done].
    intros ? ? ?. apply insert_risp_unique. }
  destruct (for_each insert_municipio _ db1) as [db2|e] eqn:H2; [|done].
  assert (store_unique db2) as Hdb2.
  { revert H2. apply for_each_preserves; [|done].
    intros ? ? ?. apply insert_municipio_unique. }
  destruct (insert_tipos _ db2 ∅) as [db3 res] eqn:H3.
  assert (store_unique db3) as Hdb3 by by eapply insert_tipos_unique.
  destruct res as [d|e]; [|done].
  destruct (for_each (insert_crime d) df db3) as [db4|e] eqn:H4; [|done].
  simpl. revert H4. apply for_each_preserves; [|done].
  intros ? ? ?. apply insert_crime_unique.
Qed.

Lemma load_all_unique (dfs : list (list Row)) (db : store) :
  store_unique db → store_unique (load_all db dfs).
Proof.
  revert db. induction dfs as [|df dfs IH]; intros db Hdb; [done|].
  simpl. apply IH. by apply create_normalized_database_unique.
Qed.

Lemma empty_store_unique : store_unique empty_store.
Proof. repeat split; apply NoDup_nil_2. Qed.

(** *** What the loader can raise *)

Lemma insert_tipos_Raise (l : list cell) (db db' : store) (d : gmap cell Z) (e : exn) :
  insert_tipos l db d = (db', Raise e) → e = IntegrityError NotNull.
Proof.
  revert db d. induction l as [|n l IH]; intros db d; simpl; [done|].
  destruct (query_tipo_crime db n) as [ex|] eqn:Hq; [apply IH|].
  destruct (add_tipo_crime db n) as [[db1 id]|e'] eqn:Hadd; [apply IH|].
  intros [= <- <-]. unfold add_tipo_crime in Hadd.
  destruct n as [s|]; [|congruence]. case_decide as Hs; [|done].
  apply query_tipo_crime_Some in Hs as [x Hx]. congruence.
Qed.

(** The existence checks keep every duplicate and every dangling reference
    away from the store: the one exception the loader can leave with is the
    rejection of a missing value. *)
Lemma create_normalized_database_Aborted (db : store) (df : list Row) (e : exn) :
  (create_normalized_database db df).2 = Aborted e → e = IntegrityError NotNull.
Proof.
  unfold create_normalized_database. case_bool_decide; [done|].
  destruct (risp_step_Ok (unique (risp <$> df)) db) as [db1 H1]. rewrite H1.
  destruct (for_each insert_municipio _ db1) as [db2|e2] eqn:H2.
  - destruct (insert_tipos _ db2 ∅) as [db3 [d|e3]] eqn:H3.
    + destruct (for_each (insert_crime d) df db3) as [db4|e4] eqn:H4; [done|].
      intros [= <-].
      apply (for_each_Raise _ (λ s, municipio_tbl s = municipio_tbl db3
                                     ∧ tipo_crime_tbl s = tipo_crime_tbl db3)) in H4
        as (x & s & Hx & [Hm Ht] & Hr); [| |done].
      2: { intros r s s' [? ?] Hr. inv_body Hr; done. }
      unfold insert_crime in Hr.
      destruct (query_crime s _ _ _ _) as [c|] eqn:Hq; [done|].
      unfold add_crime in Hr. destruct (rmbh x); [|congruence].
      destruct (d !! natureza_padronizada x) as [tid|] eqn:Hd; [|congruence].
      case_decide as Hkey.
      { apply query_crime_Some in Hkey as [c Hc]. congruence. }
      case_decide as Hfk; [done|]. destruct Hfk. rewrite Hm, Ht. split.
      * pose proof (insert_tipos_frame _ _ _ _ _ H3) as (_ & -> & _).
        apply (municipio_step_cover _ _ _ H2 (cod_municipio x, municipio x, risp x)).
        apply elem_of_unique.
        by apply (list_elem_of_fmap_2 (λ r, (cod_municipio r, municipio r, risp r))).
      * apply insert_tipos_dict in H3 as [_ Hdict]. rewrite Hdict in Hd.
        case_decide; [|by rewrite lookup_empty in Hd].
        destruct (query_tipo_crime db3 _) as [t|] eqn:Hq3; [|done].
        injection Hd as <-. apply first_Some in Hq3 as [Hin _].
        by apply list_elem_of_fmap_2.
    + intros [= <-]. by eapply insert_tipos_Raise.
  - intros [= <-].
    apply (for_each_Raise _ (λ s, risp_tbl s = risp_tbl db1)) in H2
      as (x & s & Hx & Hs & Hr); [| |done].
    2: { intros r s s' ? Hr. inv_body Hr; done. }
    destruct x as [[cod nome] r]. unfold insert_municipio in Hr.
    destruct (query_municipio s cod) as [m|] eqn:Hq; [done|].
    unfold add_municipio in Hr. destruct nome as [nome|]; [|congruence].
    case_decide as Hkey.
    { apply query_municipio_Some in Hkey as [m Hm]. congruence. }
    case_decide as Hfk; [done|]. destruct Hfk. rewrite Hs.
    apply (risp_step_cover _ _ _ H1). apply elem_of_unique.
    apply elem_of_unique, list_elem_of_fmap in Hx as (row & [= _ _ ->] & Hrow).
    by apply list_elem_of_fmap_2.
Qed.

(** ** Claims on the loader *)

Lemma create_normalized_database_skip (db : store) (df : list Row) :
  crime_tbl db ≠ [] → create_normalized_database db df = (db, Skipped).
Proof. intros Hc. unfold create_normalized_database. by rewrite bool_decide_true. Qed.

(** On a store that holds what the first two steps inserted, they insert
    nothing. *)
Lemma steps_noop (df : list Row) (db db1 db2 db3 : store) :
  for_each insert_risp (unique (risp <$> df)) db = Ok db1 →
  for_each insert_municipio
    (unique ((λ r, (cod_municipio r, municipio r, risp r)) <$> df)) db1 = Ok db2 →
  risp_tbl db3 = risp_tbl db2 → municipio_tbl db3 = municipio_tbl db2 →
  for_each insert_risp (unique (risp <$> df)) db3 = Ok db3
  ∧ for_each insert_municipio
      (unique ((λ r, (cod_municipio r, municipio r, risp r)) <$> df)) db3 = Ok db3.
Proof.
  intros H1 H2 Hr Hm. split.
  - apply risp_step_noop. intros r Hin. rewrite Hr.
    apply municipio_step_frame in H2 as (-> & _). by eapply risp_step_cover.
  - apply municipio_step_noop. intros t Hin. rewrite Hm.
    by eapply municipio_step_cover.
Qed.

(** Loading a frame again into the store the first load left changes
    nothing. *)
Lemma create_normalized_database_idempotent (db : store) (df : list Row) :
  (create_normalized_database (create_normalized_database db df).1 df).1
  = (create_normalized_database db df).1.
Proof.
  destruct (decide (crime_tbl db = [])) as [Hnil|Hne].
  2: { rewrite (create_normalized_database_skip db df Hne). simpl.
       by rewrite (create_normalized_database_skip db df Hne). }
  unfold create_normalized_database at 2 3. rewrite bool_decide_false by auto.
  destruct (for_each insert_risp _ db) as [db1|e1] eqn:H1.
  2: { simpl. unfold create_normalized_database.
       rewrite bool_decide_false by auto. by rewrite H1. }
  pose proof (risp_step_frame _ _ _ H1) as (Hm1 & Ht1 & Hc1).
  destruct (for_each insert_municipio _ db1) as [db2|e2] eqn:H2.
  2: { simpl. unfold create_normalized_database.
       rewrite bool_decide_false by (rewrite Hc1; auto).
       rewrite (risp_step_noop _ db1) by (by eapply risp_step_cover).
       by rewrite H2. }
  pose proof (municipio_step_frame _ _ _ H2) as (Hr2 & Ht2 & Hc2).
  destruct (insert_tipos _ db2 ∅) as [db3 res] eqn:H3.
  pose proof (insert_tipos_frame _ _ _ _ _ H3) as (Hr3 & Hm3 & Hc3 & _).
  destruct (steps_noop df db db1 db2 db3 H1 H2 Hr3 Hm3) as [H1' H2'].
  assert (crime_tbl db3 = []) as Hnil3 by congruence.
  destruct res as [d|e3].
  2: { simpl. unfold create_normalized_database.
       rewrite bool_decide_false by (rewrite Hnil3; auto).
       rewrite H1', H2'. by rewrite (insert_tipos_rerun_Raise _ _ _ _ ∅ _ H3). }
  pose proof (insert_tipos_dict _ _ _ _ _ H3) as [Hin Hd].
  destruct (insert_tipos_noop _ db3 ∅ Hin) as [d' H3'].
  assert (d' = d) as ->.
  { apply insert_tipos_dict in H3' as [_ Hd']. apply map_eq. intros n.
    by rewrite Hd, Hd'. }
  destruct (for_each (insert_crime d) df db3) as [db4|e4] eqn:H4.
  2: { simpl. unfold create_normalized_database.
       rewrite bool_decide_false by (rewrite Hnil3; auto).
       by rewrite H1', H2', H3', H4. }
  simpl. destruct df as [|r df].
  - simpl in *. simplify_eq. unfold create_normalized_database.
    by rewrite bool_decide_false by auto.
  - rewrite create_normalized_database_skip; [done|].
    by eapply crime_step_nonempty.
Qed.

(** A load that inserted a frame with at least one row left a row in
    [crime]. *)
Lemma create_normalized_database_Inserted (db db' : store) (df : list Row) :
  create_normalized_database db df = (db', Inserted) → df ≠ [] → crime_tbl db' ≠ [].
Proof.
  unfold create_normalized_database. case_bool_decide; [done|].
  destruct (for_each insert_risp _ db) as [db1|e1]; [|done].
  destruct (for_each insert_municipio _ db1) as [db2|e2]; [|done].
  destruct (insert_tipos _ db2 ∅) as [db3 [d|e3]]; [|done].
  destruct (for_each (insert_crime d) df db3) as [db4|e4] eqn:H4; [|done].
  intros [= <-]. by eapply crime_step_nonempty.
Qed.

(** C1.  Loading a frame into the empty store and loading it again leaves
    the same store, so the same number of rows in the four tables; after a
    load that inserted a frame with rows, the second call reports the skip;
    and whenever [crime] holds a row, the call returns the store as it is
    and reports the skip. *)
Theorem C1_second_load_changes_nothing :
  (∀ df,
     (create_normalized_database (create_normalized_database empty_store df).1 df).1
     = (create_normalized_database empty_store df).1
     ∧ row_counts
         (create_normalized_database (create_normalized_database empty_store df).1 df).1
       = row_counts (create_normalized_database empty_store df).1
     ∧ ((create_normalized_database empty_store df).2 = Inserted → df ≠ [] →
        (create_normalized_database (create_normalized_database empty_store df).1 df).2
        = Skipped))
  ∧ (∀ db df, crime_tbl db ≠ [] → create_normalized_database db df = (db, Skipped)).
Proof.
  split; [|apply create_normalized_database_skip].
  intros df. rewrite create_normalized_database_idempotent.
  split; [done|]. split; [done|]. intros Hins Hdf.
  destruct (create_normalized_database empty_store df) as [db' o] eqn:Hrun.
  simpl in *. subst o. rewrite create_normalized_database_skip; [done|].
  by eapply create_normalized_database_Inserted.
Qed.

Lemma C1_second_load_changes_nothing_witness :
  (create_normalized_database
     (create_normalized_database empty_store [row_bh; row_bh_other]).1
     [row_bh; row_bh_other]).2 = Skipped
  ∧ create_normalized_database
      (create_normalized_database empty_store [row_bh]).1 [row_bh_other]
    = ((create_normalized_database empty_store [row_bh]).1, Skipped).
Proof.
  split.
  - apply (proj1 C1_second_load_changes_nothing [row_bh; row_bh_other]).
    + vm_compute. reflexivity.
    + discriminate.
  - apply (proj2 C1_second_load_changes_nothing). vm_compute. discriminate.
Defined.

(** C2.  After any sequence of loads into the empty store no two rows of
    [risp] share an id, no two rows of [municipio] a code, no two rows of
    [tipo_crime] a name and no two rows of [crime] the columns
    (municipio_id, tipo_crime_id, mes, ano); the frame made of one row
    twice leaves one row in each of the four tables. *)
Theorem C2_keys_are_unique :
  (∀ dfs, store_unique (load_all empty_store dfs))
  ∧ row_counts (create_normalized_database empty_store [row_bh; row_bh]).1
    = (1%nat, 1%nat, 1%nat, 1%nat)
  ∧ (create_normalized_database empty_store [row_bh; row_bh]).2 = Inserted.
Proof.
  split; [|split; vm_compute; reflexivity].
  intros dfs. apply load_all_unique, empty_store_unique.
Qed.

(** What a call leaves in [crime] when it starts on an empty table and does
    not reach the end of the fourth step. *)
Lemma create_normalized_database_crime (db : store) (df : list Row) :
  crime_tbl db = [] →
  crime_tbl (create_normalized_database db df).1 = []
  ∨ ∃ db1 db2 db3 d,
      for_each insert_risp (unique (risp <$> df)) db = Ok db1
      ∧ for_each insert_municipio
          (unique ((λ r, (cod_municipio r, municipio r, risp r)) <$> df)) db1 = Ok db2
      ∧ insert_tipos (unique (natureza_padronizada <$> df)) db2 ∅ = (db3, Ok d)
      ∧ crime_tbl db3 = []
      ∧ for_each (insert_crime d) df db3 = Ok (create_normalized_database db df).1.
Proof.
  intros Hnil. unfold create_normalized_database. rewrite bool_decide_false by auto.
  destruct (for_each insert_risp _ db) as [db1|e1] eqn:H1; [|by left].
  pose proof (risp_step_frame _ _ _ H1) as (_ & _ & Hc1).
  destruct (for_each insert_municipio _ db1) as [db2|e2] eqn:H2;
    [|left; simpl; congruence].
  pose proof (municipio_step_frame _ _ _ H2) as (_ & _ & Hc2).
  destruct (insert_tipos _ db2 ∅) as [db3 res] eqn:H3.
  pose proof (insert_tipos_frame _ _ _ _ _ H3) as (_ & _ & Hc3 & _).
  assert (crime_tbl db3 = []) as Hnil3 by congruence.
  destruct res as [d|e3]; [|by left].
  destruct (for_each (insert_crime d) df db3) as [db4|e4] eqn:H4; [|by left].
  right. by exists db1, db2, db3, d.
Qed.

(** C5.  A turn of the fourth loop on a row whose type the dictionary does
    not resolve raises and writes nothing; every row of [crime] the loader
    writes refers to a row of [municipio] and to a row of [tipo_crime] of
    the store it leaves; and a frame with a row whose type is missing, on a
    store without crimes, ends in an exception with no row in [crime]. *)
Theorem C5_no_dangling_reference :
  (∀ (d : gmap cell Z) (r : Row) (db : store),
     d !! natureza_padronizada r = None →
     insert_crime d r db = Raise (IntegrityError NotNull))
  ∧ (∀ (db : store) (df : list Row) (c : Crime.t),
       c ∈ crime_tbl (create_normalized_database db df).1 →
       c ∈ crime_tbl db
       ∨ (Crime.municipio_id c ∈ Municipio.cod_municipio <$>
            municipio_tbl (create_normalized_database db df).1
          ∧ Crime.tipo_crime_id c ∈ TipoCrime.id <$>
              tipo_crime_tbl (create_normalized_database db df).1))
  ∧ (∀ (db : store) (df : list Row) (r : Row),
       crime_tbl db = [] → r ∈ df → natureza_padronizada r = None →
       (∃ e, (create_normalized_database db df).2 = Aborted e)
       ∧ crime_tbl (create_normalized_database db df).1 = []).
Proof.
  split; [apply insert_crime_unresolved|]. split.
  - intros db df c Hc. destruct (decide (crime_tbl db = [])) as [Hnil|Hne].
    + destruct (create_normalized_database_crime db df Hnil)
        as [Hnone|(db1 & db2 & db3 & d & _ & _ & _ & Hnil3 & H4)].
      * rewrite Hnone in Hc. by apply elem_of_nil in Hc.
      * destruct (crime_step_resolved _ _ _ _ H4 c Hc) as [Hc3|?]; [|by right].
        rewrite Hnil3 in Hc3. by apply elem_of_nil in Hc3.
    + rewrite (create_normalized_database_skip db df Hne) in Hc. by left.
  - intros db df r Hnil Hr Hnone.
    assert (None ∈ unique (natureza_padronizada <$> df)) as Hmissing.
    { apply elem_of_unique. rewrite <-Hnone. by apply list_elem_of_fmap_2. }
    unfold create_normalized_database. rewrite bool_decide_false by auto.
    destruct (for_each insert_risp _ db) as [db1|e1] eqn:H1; [|by eauto].
    pose proof (risp_step_frame _ _ _ H1) as (_ & _ & Hc1).
    destruct (for_each insert_municipio _ db1) as [db2|e2] eqn:H2;
      [|simpl; split; [eauto|congruence]].
    pose proof (municipio_step_frame _ _ _ H2) as (_ & _ & Hc2).
    destruct (insert_tipos_missing _ db2 ∅ Hmissing) as [e He].
    destruct (insert_tipos _ db2 ∅) as [db3 res] eqn:H3.
    pose proof (insert_tipos_frame _ _ _ _ _ H3) as (_ & _ & Hc3 & _).
    simpl in He. subst res. simpl. split; [eauto|congruence].
Qed.

Lemma C5_no_dangling_reference_witness :
  insert_crime ∅ row_bh empty_store = Raise (IntegrityError NotNull)
  ∧ (∃ e, (create_normalized_database empty_store [row_bh; row_no_type]).2 = Aborted e)
  ∧ crime_tbl (create_normalized_database empty_store [row_bh; row_no_type]).1 = [].
Proof.
  split.
  - apply (proj1 C5_no_dangling_reference). reflexivity.
  - apply (proj2 (proj2 C5_no_dangling_reference) empty_store
             [row_bh; row_no_type] row_no_type).
    + reflexivity.
    + right. left.
    + reflexivity.
Defined.

(** C10.  After a load into the empty store, every row of [crime] carries
    the [registros] and [rmbh] of the first row of the frame that has its
    key (municipio_id, tipo_crime_id, mes, ano), and every row of
    [municipio] the name and the region of the first row of the frame that
    has its code; there is one row per key, and a later row with the same
    key is passed over without an exception: the loader raises for a
    missing value only. *)
Theorem C10_first_row_is_kept :
  (∀ (df : list Row) (c : Crime.t),
     c ∈ crime_tbl (create_normalized_database empty_store df).1 →
     ∃ r0, first (same_key (create_normalized_database empty_store df).1 c) df = Some r0
           ∧ registros r0 = Crime.registros c ∧ rmbh r0 = Some (Crime.rmbh c))
  ∧ (∀ (df : list Row) (m : Municipio.t),
       m ∈ municipio_tbl (create_normalized_database empty_store df).1 →
       ∃ r0, first (λ r, cod_municipio r = Municipio.cod_municipio m) df = Some r0
             ∧ municipio r0 = Some (Municipio.nome m)
             ∧ risp r0 = Municipio.risp_id m)
  ∧ (∀ df, NoDup (Crime.key <$> crime_tbl (create_normalized_database empty_store df).1)
           ∧ NoDup (Municipio.cod_municipio <$>
                      municipio_tbl (create_normalized_database empty_store df).1))
  ∧ (∀ db df e, (create_normalized_database db df).2 = Aborted e →
                e = IntegrityError NotNull)
  ∧ create_normalized_database empty_store [row_bh; row_bh_other]
    = ({| risp_tbl := [ {| Risp.id := 1; Risp.descricao := py "RISP 1" |};
                        {| Risp.id := 7; Risp.descricao := py "RISP 7" |} ];
          municipio_tbl :=
            [ {| Municipio.cod_municipio := py "0001";
                 Municipio.nome := py "BELO HORIZONTE"; Municipio.risp_id := 1 |} ];
          tipo_crime_tbl := [ {| TipoCrime.id := 1; TipoCrime.nome := py "ROUBO" |} ];
          crime_tbl :=
            [ {| Crime.id := 1; Crime.mes := 1; Crime.ano := 2023;
                 Crime.registros := 10; Crime.rmbh := true;
                 Crime.municipio_id := py "0001"; Crime.tipo_crime_id := 1 |} ];
          tipo_crime_seq := 2; crime_seq := 2 |}, Inserted).
Proof.
  split; [|split; [|split; [|split]]].
  - intros df c Hc.
    destruct (create_normalized_database_crime empty_store df eq_refl)
      as [Hnone|(db1 & db2 & db3 & d & _ & _ & H3 & Hnil3 & H4)].
    { rewrite Hnone in Hc. by apply elem_of_nil in Hc. }
    destruct (crime_step_first _ _ _ _ Hnil3 H4 c Hc) as (r0 & Hr0 & Hvals).
    exists r0. split; [|done]. rewrite <-Hr0. apply first_ext.
    intros r Hr. unfold same_key, matches, tipo_id, query_tipo_crime.
    pose proof (crime_step_frame _ _ _ _ H4) as (_ & _ & ->).
    apply insert_tipos_dict in H3 as [_ Hd]. rewrite Hd, lookup_empty.
    rewrite decide_True; [done|].
    apply elem_of_unique. by apply list_elem_of_fmap_2.
  - intros df m Hm.
    assert (∃ db1 db2,
      for_each insert_municipio
        (unique ((λ r, (cod_municipio r, municipio r, risp r)) <$> df)) db1 = Ok db2
      ∧ municipio_tbl db1 = []
      ∧ municipio_tbl (create_normalized_database empty_store df).1 = municipio_tbl db2)
      as (db1 & db2 & H2 & Hnil1 & Heq).
    { revert Hm. unfold create_normalized_database. simpl.
      destruct (for_each insert_risp _ empty_store) as [db1|e1] eqn:H1;
        [|intros Hm; by apply elem_of_nil in Hm].
      pose proof (risp_step_frame _ _ _ H1) as (Hm1 & _ & _).
      destruct (for_each insert_municipio _ db1) as [db2|e2] eqn:H2.
      2: { simpl. rewrite Hm1. intros Hm. by apply elem_of_nil in Hm. }
      intros _. exists db1, db2. split; [done|]. split; [done|].
      destruct (insert_tipos _ db2 ∅) as [db3 res] eqn:H3.
      pose proof (insert_tipos_frame _ _ _ _ _ H3) as (_ & Hm3 & _).
      destruct res as [d|e3]; [|done].
      destruct (for_each (insert_crime d) df db3) as [db4|e4] eqn:H4; [|done].
      simpl. apply crime_step_frame in H4 as (_ & -> & _). done. }
    rewrite Heq in Hm.
    destruct (municipio_step_first _ _ _ Hnil1 H2 m Hm) as (t & Ht & Hnome & Hrisp).
    rewrite first_unique, first_fmap in Ht.
    destruct (first _ df) as [r0|] eqn:Hr0; [|done].
    injection Ht as <-. by exists r0.
  - intros df.
    destruct (create_normalized_database_unique empty_store df empty_store_unique)
      as (_ & ? & _ & ?). done.
  - apply create_normalized_database_Aborted.
  - vm_compute. reflexivity.
Qed.

Lemma C10_first_row_is_kept_witness :
  ∃ r0, first (same_key (create_normalized_database empty_store [row_bh; row_bh_other]).1
                 {| Crime.id := 1; Crime.mes := 1; Crime.ano := 2023;
                    Crime.registros := 10; Crime.rmbh := true;
                    Crime.municipio_id := py "0001"; Crime.tipo_crime_id := 1 |})
          [row_bh; row_bh_other] = Some r0
        ∧ registros r0 = 10 ∧ rmbh r0 = Some true.
Proof.
  apply (proj1 C10_first_row_is_kept [row_bh; row_bh_other]).
  vm_compute. left.
Defined.

(** * Further properties *)

(** ** The normaliser *)



(** ** The loader only appends *)

#[global] Instance grows_preorder : PreOrder grows.
Proof.
  split.
  - intros db. by repeat split.
  - intros db1 db2 db3 (? & ? & ? & ?) (? & ? & ? & ?).
    repeat split; by etrans.
Qed.

Lemma grows_risp (r : Z) (db db' : store) : insert_risp r db = Ok db' → grows db db'.
Proof. intros Hr. inv_body Hr; repeat split; simpl; try done. by apply prefix_app_r. Qed.

Lemma grows_municipio (t : pystr * cell * Z) (db db' : store) :
  insert_municipio t db = Ok db' → grows db db'.
Proof. intros Hr. inv_body Hr; repeat split; simpl; try done. by apply prefix_app_r. Qed.

Lemma grows_crime (d : gmap cell Z) (r : Row) (db db' : store) :
  insert_crime d r db = Ok db' → grows db db'.
Proof. intros Hr. inv_body Hr; repeat split; simpl; try done. by apply prefix_app_r. Qed.

Lemma grows_tipos (l : list cell) (db db' : store) (d : gmap cell Z)
    (res : result (gmap cell Z)) :
  insert_tipos l db d = (db', res) → grows db db'.
Proof.
  intros Hl. unfold grows.
  apply insert_tipos_frame in Hl as (-> & -> & -> & new & ->).
  repeat split; try done. by apply prefix_app_r.
Qed.

Lemma for_each_grows {A} (body : A → store → result store) (l : list A) (db db' : store) :
  (∀ x s s', body x s = Ok s' → grows s s') →
  for_each body l db = Ok db' → grows db db'.
Proof.
  intros Hbody. apply (for_each_preserves body (grows db)); [|done].
  intros x s s' Hs Hx. etrans; [done|]. by eapply Hbody.
Qed.

(** X2.  The loader never removes and never changes a stored row: each of
    the four tables it leaves starts with the rows the table had, in their
    order, whatever the frame and however the call ends; so it is after any
    sequence of loads. *)
Theorem create_normalized_database_appends :
  (∀ db df, grows db (create_normalized_database db df).1)
  ∧ (∀ db dfs, grows db (load_all db dfs)).
Proof.
  assert (∀ db df, grows db (create_normalized_database db df).1) as Hone.
  { intros db df. unfold create_normalized_database. case_bool_decide; [done|].
    destruct (for_each insert_risp _ db) as [db1|e1] eqn:H1; [|done].
    apply (for_each_grows _ _ _ _ grows_risp) in H1.
    destruct (for_each insert_municipio _ db1) as [db2|e2] eqn:H2; [|done].
    apply (for_each_grows _ _ _ _ grows_municipio) in H2.
    destruct (insert_tipos _ db2 ∅) as [db3 res] eqn:H3.
    apply grows_tipos in H3.
    assert (grows db db3) by (etrans; [done|]; by etrans).
    destruct res as [d|e3]; [|done].
    destruct (for_each (insert_crime d) df db3) as [db4|e4] eqn:H4; [|done].
    apply (for_each_grows _ _ _ _ (grows_crime d)) in H4. simpl. by etrans. }
  split; [done|]. intros db dfs. revert db.
  induction dfs as [|df dfs IH]; intros db; [done|].
  simpl. etrans; [apply (Hone db df)|apply IH].
Qed.

(** ** References between the tables *)

Lemma elem_of_fmap_app_l {A B} (f : A → B) (l k : list A) (y : B) :
  y ∈ f <$> l → y ∈ f <$> (l ++ k).
Proof. intros Hy. rewrite fmap_app. apply elem_of_app. by left. Qed.

Lemma refs_risp (r : Z) (db db' : store) :
  store_refs db → insert_risp r db = Ok db' → store_refs db'.
Proof.
  intros [Hm Hc] Hr. inv_body Hr; [done|]. split; simpl; [|done].
  intros m Hin. by apply elem_of_fmap_app_l, Hm.
Qed.

Lemma refs_municipio (t : pystr * cell * Z) (db db' : store) :
  store_refs db → insert_municipio t db = Ok db' → store_refs db'.
Proof.
  intros [Hm Hc] Hr. inv_body Hr; [done|]. split; simpl.
  - intros m Hin. apply elem_of_app in Hin as [Hin|Hin]; [auto|].
    by apply list_elem_of_singleton in Hin as ->.
  - intros c Hin. destruct (Hc c Hin). split; [|done]. by apply elem_of_fmap_app_l.
Qed.

Lemma refs_crime (d : gmap cell Z) (r : Row) (db db' : store) :
  store_refs db → insert_crime d r db = Ok db' → store_refs db'.
Proof.
  intros [Hm Hc] Hr. inv_body Hr; [done|]. split; simpl; [done|].
  intros c Hin. apply elem_of_app in Hin as [Hin|Hin]; [auto|].
  by apply list_elem_of_singleton in Hin as ->.
Qed.

Lemma refs_tipos (l : list cell) (db db' : store) (d : gmap cell Z)
    (res : result (gmap cell Z)) :
  store_refs db → insert_tipos l db d = (db', res) → store_refs db'.
Proof.
  intros [Hm Hc] Hl. unfold store_refs.
  apply insert_tipos_frame in Hl as (-> & -> & -> & new & ->).
  split; [done|]. intros c Hin. destruct (Hc c Hin). split; [done|].
  by apply elem_of_fmap_app_l.
Qed.

Lemma create_normalized_database_refs (db : store) (df : list Row) :
  store_refs db → store_refs (create_normalized_database db df).1.
Proof.
  intros Hdb. unfold create_normalized_database. case_bool_decide; [done|].
  destruct (for_each insert_risp _ db) as [db1|e1] eqn:H1; [|done].
  assert (store_refs db1) as Hdb1.
  { revert H1. apply for_each_preserves; [|done]. intros ? ? ?. apply refs_risp. }
  destruct (for_each insert_municipio _ db1) as [db2|e2] eqn:H2; [|done].
  assert (store_refs db2) as Hdb2.
  { revert H2. apply for_each_preserves; [|done]. intros ? ? ?. apply refs_municipio. }
  destruct (insert_tipos _ db2 ∅) as [db3 res] eqn:H3.
  assert (store_refs db3) as Hdb3 by by eapply refs_tipos.
  destruct res as [d|e3]; [|done].
  destruct (for_each (insert_crime d) df db3) as [db4|e4] eqn:H4; [|done].
  simpl. revert H4. apply for_each_preserves; [|done]. intros ? ? ?. apply refs_crime.
Qed.

(** X3.  Referential integrity is an invariant of the loader: when every
    municipality of the store refers to a stored region and every crime to
    a stored municipality and a stored type, so it is in the store the call
    leaves, however it ends; hence after any sequence of loads into the
    empty store. *)
Theorem create_normalized_database_keeps_references :
  (∀ db df, store_refs db → store_refs (create_normalized_database db df).1)
  ∧ (∀ dfs, store_refs (load_all empty_store dfs)).
Proof.
  split; [apply create_normalized_database_refs|].
  assert (∀ dfs db, store_refs db → store_refs (load_all db dfs)) as Hall.
  { induction dfs as [|df dfs IH]; intros db Hdb; [done|].
    simpl. by apply IH, create_normalized_database_refs. }
  intros dfs. apply Hall. split; intros x Hx; by apply elem_of_nil in Hx.
Qed.

Lemma create_normalized_database_keeps_references_witness :
  store_refs (create_normalized_database
                (create_normalized_database empty_store [row_bh]).1 [row_bh_other]).1.
Proof.
  apply (proj1 create_normalized_database_keeps_references).
  vm_compute. split.
  - intros m Hm. apply list_elem_of_singleton in Hm as ->. left.
  - intros c Hc. apply list_elem_of_singleton in Hc as ->. split; left.
Defined.

(** ** What a load leaves in the tables *)

Section unique_more.
Context `{EqDecision A}.

Lemma NoDup_unique_from (seen l : list A) : NoDup (unique_from seen l).
Proof.
  revert seen. induction l as [|x l IH]; intros seen; simpl; [constructor|].
  destruct (decide (x ∈ seen)); [apply IH|].
  constructor; [|apply IH]. rewrite elem_of_unique_from, elem_of_cons. tauto.
Qed.

Lemma NoDup_unique (l : list A) : NoDup (unique l).
Proof. apply NoDup_unique_from. Qed.

Lemma unique_from_snoc (seen l : list A) (x : A) :
  unique_from seen (l ++ [x])
  = unique_from seen l ++ (if decide (x ∈ seen ∨ x ∈ l) then [] else [x]).
Proof.
  revert seen. induction l as [|y l IH]; intros seen; simpl.
  - destruct (decide (x ∈ seen)) as [Hx|Hx].
    + rewrite decide_True; [done|]. by left.
    + rewrite decide_False; [done|]. rewrite elem_of_nil. tauto.
  - destruct (decide (y ∈ seen)) as [Hy|Hy].
    + rewrite IH. f_equal. apply decide_ext. rewrite elem_of_cons.
      split; [tauto|]. intros [?|[->|?]]; tauto.
    + rewrite IH. simpl. f_equal. f_equal. apply decide_ext.
      rewrite !elem_of_cons. tauto.
Qed.

Lemma unique_snoc (l : list A) (x : A) :
  unique (l ++ [x]) = unique l ++ (if decide (x ∈ l) then [] else [x]).
Proof.
  unfold unique. rewrite unique_from_snoc. f_equal. apply decide_ext.
  rewrite elem_of_nil. tauto.
Qed.

End unique_more.

Lemma unique_fmap_unique `{EqDecision A} `{EqDecision B} (f : A → B) (l : list A) :
  unique (f <$> unique l) = unique (f <$> l).
Proof.
  induction l as [|x l IH] using rev_ind; [done|].
  rewrite unique_snoc, (fmap_app f l). simpl. rewrite (unique_snoc (f <$> l)).
  destruct (decide (x ∈ l)) as [Hx|Hx].
  - rewrite app_nil_r, IH. rewrite decide_True by by apply list_elem_of_fmap_2.
    by rewrite app_nil_r.
  - rewrite fmap_app. simpl. rewrite unique_snoc, IH. f_equal. apply decide_ext.
    rewrite !list_elem_of_fmap. setoid_rewrite elem_of_unique. done.
Qed.

Lemma filter_ext_in {A} (P Q : A → Prop) `{∀ x, Decision (P x)} `{∀ x, Decision (Q x)}
    (l : list A) :
  (∀ x, x ∈ l → P x ↔ Q x) → filter P l = filter Q l.
Proof.
  induction l as [|x l IH]; [done|]. intros HPQ.
  rewrite !filter_cons, IH by (intros y Hy; apply HPQ; by right).
  destruct (decide (P x)) as [HP|HP], (decide (Q x)) as [HQ|HQ]; try done.
  - destruct HQ. apply HPQ; [left|done].
  - destruct HP. apply HPQ; [left|done].
Qed.

Lemma filter_all {A} (P : A → Prop) `{∀ x, Decision (P x)} (l : list A) :
  (∀ x, x ∈ l → P x) → filter P l = l.
Proof.
  induction l as [|x l IH]; [done|]. intros HP.
  rewrite filter_cons, decide_True by (apply HP; left).
  f_equal. apply IH. intros y Hy. apply HP. by right.
Qed.

(** The first step inserts the new codes of a list without repetition, in
    order. *)
Lemma risp_step_rows (l : list Z) (db db' : store) :
  NoDup l → for_each insert_risp l db = Ok db' →
  risp_tbl db' = risp_tbl db
                 ++ (risp_row <$> filter (λ r, r ∉ Risp.id <$> risp_tbl db) l).
Proof.
  revert db. induction l as [|r l IH]; intros db Hnd; simpl.
  - intros [= <-]. by rewrite app_nil_r.
  - apply NoDup_cons in Hnd as [Hr Hnd]. rewrite filter_cons.
    destruct (insert_risp_total r db) as [[x Hx]|[Hadd Hnew]].
    + unfold insert_risp. rewrite Hx. simpl. intros Hl.
      rewrite decide_False; [by apply IH|].
      intros Hno. apply Hno, query_risp_Some. by rewrite Hx.
    + rewrite Hadd. unfold add_risp. rewrite decide_False by done. simpl.
      intros Hl. apply IH in Hl; [|done]. rewrite Hl. simpl.
      rewrite decide_True by done. rewrite <-app_assoc. simpl. do 3 f_equal.
      apply filter_ext_in. intros x Hx. rewrite fmap_app, elem_of_app. simpl.
      split; [tauto|]. intros Hnx [?|Hin]; [done|].
      apply list_elem_of_singleton in Hin as ->. done.
Qed.

(** The ways a call on a store without crimes goes through the four
    steps. *)
Lemma create_normalized_database_cases (db : store) (df : list Row) :
  crime_tbl db = [] →
  ∃ db1, for_each insert_risp (unique (risp <$> df)) db = Ok db1 ∧
    ((∃ e, for_each insert_municipio
             (unique ((λ r, (cod_municipio r, municipio r, risp r)) <$> df)) db1 = Raise e
           ∧ create_normalized_database db df = (db1, Aborted e))
     ∨ ∃ db2, for_each insert_municipio
                (unique ((λ r, (cod_municipio r, municipio r, risp r)) <$> df)) db1 = Ok db2 ∧
         ((∃ db3 e, insert_tipos (unique (natureza_padronizada <$> df)) db2 ∅ = (db3, Raise e)
                    ∧ create_normalized_database db df = (db3, Aborted e))
          ∨ ∃ db3 d, insert_tipos (unique (natureza_padronizada <$> df)) db2 ∅ = (db3, Ok d) ∧
              ((∃ e, for_each (insert_crime d) df db3 = Raise e
                     ∧ create_normalized_database db df = (db3, Aborted e))
               ∨ ∃ db4, for_each (insert_crime d) df db3 = Ok db4
                        ∧ create_normalized_database db df = (db4, Inserted)))).
Proof.
  intros Hnil. unfold create_normalized_database. rewrite bool_decide_false by auto.
  destruct (risp_step_Ok (unique (risp <$> df)) db) as [db1 H1]. rewrite H1.
  exists db1. split; [done|].
  destruct (for_each insert_municipio _ db1) as [db2|e2] eqn:H2; [right|left; eauto].
  exists db2. split; [done|].
  destruct (insert_tipos _ db2 ∅) as [db3 [d|e3]] eqn:H3; [right|left; eauto].
  exists db3, d. split; [done|].
  destruct (for_each (insert_crime d) df db3) as [db4|e4] eqn:H4; [right|left]; eauto.
Qed.

(** X4.  On a store without crimes, the call appends to [risp] one row per
    region code of the frame that the table does not hold yet, in the order
    of first appearance, with the description RISP followed by the code;
    this first step is committed however the call ends.  Into the empty
    store: the table is exactly these rows for the distinct codes. *)
Theorem risp_table_after_load :
  (∀ db df, crime_tbl db = [] →
     risp_tbl (create_normalized_database db df).1
     = risp_tbl db ++ (risp_row <$> filter (λ r, r ∉ Risp.id <$> risp_tbl db)
                                      (unique (risp <$> df))))
  ∧ (∀ df, risp_tbl (create_normalized_database empty_store df).1
           = risp_row <$> unique (risp <$> df)).
Proof.
  assert (∀ db df, crime_tbl db = [] →
     risp_tbl (create_normalized_database db df).1
     = risp_tbl db ++ (risp_row <$> filter (λ r, r ∉ Risp.id <$> risp_tbl db)
                                      (unique (risp <$> df)))) as Hgen.
  { intros db df Hnil.
    destruct (create_normalized_database_cases db df Hnil) as (db1 & H1 & Hcases).
    pose proof (risp_step_rows _ _ _ (NoDup_unique _) H1) as Hrows.
    destruct Hcases as [(e & _ & ->)|(db2 & H2 & Hcases)]; [done|].
    apply municipio_step_frame in H2 as (Hr2 & _).
    destruct Hcases as [(db3 & e & H3 & ->)|(db3 & d & H3 & Hcases)].
    { apply insert_tipos_frame in H3 as (Hr3 & _). simpl. congruence. }
    apply insert_tipos_frame in H3 as (Hr3 & _).
    destruct Hcases as [(e & _ & ->)|(db4 & H4 & ->)]; [simpl; congruence|].
    apply crime_step_frame in H4 as (Hr4 & _). simpl. congruence. }
  split; [done|]. intros df. rewrite Hgen by done. simpl. f_equal.
  apply filter_all. intros r _. apply not_elem_of_nil.
Qed.

Lemma risp_table_after_load_witness :
  risp_tbl (create_normalized_database empty_store [row_bh; row_bh_other]).1
  = [] ++ (risp_row <$> filter (λ r, r ∉ Risp.id <$> [])
                          (unique (risp <$> [row_bh; row_bh_other]))).
Proof.
  apply (proj1 risp_table_after_load empty_store [row_bh; row_bh_other]).
  reflexivity.
Defined.

Lemma municipio_step_codes (l : list (pystr * cell * Z)) (db db' : store) :
  municipio_tbl db = [] →
  for_each insert_municipio l db = Ok db' →
  Municipio.cod_municipio <$> municipio_tbl db' = unique ((λ t, t.1.1) <$> l).
Proof.
  intros Hnil.
  apply (for_each_invariant insert_municipio (λ done s,
    Municipio.cod_municipio <$> municipio_tbl s = unique ((λ t, t.1.1) <$> done))).
  - intros done [[cod nome] r] s s' Hs Hx.
    rewrite fmap_app. simpl. rewrite unique_snoc, <-Hs.
    unfold insert_municipio in Hx.
    destruct (query_municipio s cod) as [m|] eqn:Hq.
    + injection Hx as <-. rewrite decide_True; [by rewrite app_nil_r|].
      rewrite <-(elem_of_unique (_ <$> done)), <-Hs.
      apply query_municipio_Some. by rewrite Hq.
    + assert (cod ∉ (λ t, t.1.1) <$> done) as Hnew.
      { rewrite <-(elem_of_unique (_ <$> done)), <-Hs, <-query_municipio_Some, Hq.
        by intros [? ?]. }
      rewrite decide_False by done. inv_body Hx. by rewrite fmap_app.
  - by rewrite Hnil.
Qed.

Lemma list_by_key {A K} (f : A → K) (g : K → option A) (l : list A) :
  (∀ x, x ∈ l → g (f x) = Some x) → l = omap g (f <$> l).
Proof.
  induction l as [|x l IH]; [done|]. intros Hl. simpl.
  rewrite Hl by left. f_equal. apply IH. intros y Hy. apply Hl. by right.
Qed.

(** X5.  After a load into the empty store that inserted the frame,
    [municipio] holds one row per municipality code of the frame, in the
    order of first appearance, with the name and the region of the first
    row of the frame that has the code. *)
Theorem municipio_table_after_load (df : list Row) (db' : store) :
  create_normalized_database empty_store df = (db', Inserted) →
  municipio_tbl db' = omap (municipio_row df) (unique (cod_municipio <$> df)).
Proof.
  intros Hrun.
  destruct (create_normalized_database_cases empty_store df eq_refl)
    as (db1 & H1 & [(e & _ & Hab)|(db2 & H2 & Hcases)]); [congruence|].
  assert (municipio_tbl db' = municipio_tbl db2) as Heq.
  { destruct Hcases as [(db3 & e & _ & Hab)|(db3 & d & H3 & Hcases)]; [congruence|].
    destruct Hcases as [(e & _ & Hab)|(db4 & H4 & Hins)]; [congruence|].
    apply insert_tipos_frame in H3 as (_ & Hm3 & _).
    apply crime_step_frame in H4 as (_ & Hm4 & _). congruence. }
  pose proof (risp_step_frame _ _ _ H1) as (Hm1 & _).
  assert (Municipio.cod_municipio <$> municipio_tbl db2 = unique (cod_municipio <$> df))
    as Hcodes.
  { rewrite (municipio_step_codes _ _ _ Hm1 H2), unique_fmap_unique.
    by rewrite <-list_fmap_compose. }
  rewrite Heq, <-Hcodes. apply list_by_key. intros m Hm.
  destruct (municipio_step_first _ _ _ Hm1 H2 m Hm) as (t & Ht & Hnome & Hrisp).
  rewrite first_unique, first_fmap in Ht. unfold municipio_row.
  destruct (first _ df) as [r0|] eqn:Hr0; [|done]. simpl in *.
  injection Ht as <-. simpl in *. rewrite Hnome. simpl. rewrite Hrisp.
  by destruct m.
Qed.

Lemma municipio_table_after_load_witness :
  municipio_tbl (create_normalized_database empty_store [row_bh; row_bh_other]).1
  = omap (municipio_row [row_bh; row_bh_other])
      (unique (cod_municipio <$> [row_bh; row_bh_other])).
Proof.
  apply (municipio_table_after_load [row_bh; row_bh_other]).
  vm_compute. reflexivity.
Defined.

Lemma risp_step_seq (l : list Z) (db db' : store) :
  for_each insert_risp l db = Ok db' →
  tipo_crime_seq db' = tipo_crime_seq db ∧ crime_seq db' = crime_seq db.
Proof.
  apply (for_each_preserves insert_risp
    (λ s, tipo_crime_seq s = tipo_crime_seq db ∧ crime_seq s = crime_seq db)); [|done].
  intros r s s' Hs Hr. inv_body Hr; done.
Qed.

Lemma municipio_step_seq (l : list (pystr * cell * Z)) (db db' : store) :
  for_each insert_municipio l db = Ok db' →
  tipo_crime_seq db' = tipo_crime_seq db ∧ crime_seq db' = crime_seq db.
Proof.
  apply (for_each_preserves insert_municipio
    (λ s, tipo_crime_seq s = tipo_crime_seq db ∧ crime_seq s = crime_seq db)); [|done].
  intros r s s' Hs Hr. inv_body Hr; done.
Qed.

Lemma insert_tipos_seq (l : list cell) (db db' : store) (d : gmap cell Z)
    (res : result (gmap cell Z)) :
  insert_tipos l db d = (db', res) → crime_seq db' = crime_seq db.
Proof.
  revert db d. induction l as [|n l IH]; intros db d; simpl.
  - by intros [= <- <-].
  - destruct (query_tipo_crime db n) as [ex|]; [apply IH|].
    destruct (add_tipo_crime db n) as [[db1 id]|e] eqn:Hadd.
    + intros Hl. apply IH in Hl. inv_body Hadd. done.
    + by intros [= <- <-].
Qed.

(** The third step, on names without repetition that the table does not
    hold, appends one row per name, in order, with consecutive keys. *)
Lemma insert_tipos_rows (l : list cell) (db db' : store) (d d' : gmap cell Z) :
  NoDup l → (∀ n, n ∈ l → query_tipo_crime db n = None) →
  insert_tipos l db d = (db', Ok d') →
  ∃ names, l = Some <$> names
    ∧ tipo_crime_tbl db'
      = tipo_crime_tbl db
        ++ zip_with tipo_crime_row (seqZ (tipo_crime_seq db) (Z.of_nat (length names))) names.
Proof.
  revert db d. induction l as [|n l IH]; intros db d Hnd Hnew; simpl.
  - intros [= <- <-]. exists []. by rewrite app_nil_r.
  - apply NoDup_cons in Hnd as [Hn Hnd]. rewrite (Hnew n) by left.
    unfold add_tipo_crime. destruct n as [s|]; [|done].
    case_decide as Hs; [done|]. intros Hl.
    apply IH in Hl as (names & -> & Htbl); [|done|].
    + exists (s :: names). split; [done|]. rewrite Htbl. simpl.
      rewrite <-app_assoc. f_equal.
      rewrite (seqZ_cons (tipo_crime_seq db)) by (simpl; lia). simpl. do 2 f_equal.
      f_equal; lia.
    + intros n Hin. unfold query_tipo_crime. simpl.
      rewrite first_app_r by (apply Hnew; by right).
      rewrite first_cons, decide_False; [done|]. simpl. by intros <-.
Qed.

(** X6.  After a load into the empty store that inserted the frame,
    [tipo_crime] holds one row per standardized type of the frame, in the
    order of first appearance, and the store numbered them 1, 2, 3, ... in
    that order. *)
Theorem tipo_crime_table_after_load (df : list Row) (db' : store) :
  create_normalized_database empty_store df = (db', Inserted) →
  ∃ names, unique (natureza_padronizada <$> df) = Some <$> names
    ∧ tipo_crime_tbl db' = zip_with tipo_crime_row (seqZ 1 (Z.of_nat (length names))) names.
Proof.
  intros Hrun.
  destruct (create_normalized_database_cases empty_store df eq_refl)
    as (db1 & H1 & [(e & _ & Hab)|(db2 & H2 & Hcases)]); [congruence|].
  destruct Hcases as [(db3 & e & _ & Hab)|(db3 & d & H3 & Hcases)]; [congruence|].
  destruct Hcases as [(e & _ & Hab)|(db4 & H4 & Hins)]; [congruence|].
  assert (db' = db4) as -> by congruence.
  pose proof (risp_step_frame _ _ _ H1) as (_ & Ht1 & _).
  pose proof (municipio_step_frame _ _ _ H2) as (_ & Ht2 & _).
  pose proof (risp_step_seq _ _ _ H1) as (Hs1 & _).
  pose proof (municipio_step_seq _ _ _ H2) as (Hs2 & _).
  assert (tipo_crime_tbl db2 = []) as Hnil by (rewrite Ht2, Ht1; done).
  apply insert_tipos_rows in H3 as (names & Hnames & Htbl).
  - exists names. split; [done|].
    apply crime_step_frame in H4 as (_ & _ & ->).
    rewrite Htbl, Hnil, Hs2, Hs1. done.
  - apply NoDup_unique.
  - intros n _. unfold query_tipo_crime. by rewrite Hnil.
Qed.

Lemma tipo_crime_table_after_load_witness :
  ∃ names, unique (natureza_padronizada <$> [row_bh; row_bh_other]) = Some <$> names
    ∧ tipo_crime_tbl (create_normalized_database empty_store [row_bh; row_bh_other]).1
      = zip_with tipo_crime_row (seqZ 1 (Z.of_nat (length names))) names.
Proof.
  apply (tipo_crime_table_after_load [row_bh; row_bh_other]).
  vm_compute. reflexivity.
Defined.

(** The fourth step, started on an empty table, appends one row per key
    of the frame, in the order of first appearance, with consecutive
    numbers. *)
Lemma crime_step_keys (d : gmap cell Z) (l : list Row) (db db' : store) :
  crime_tbl db = [] →
  for_each (insert_crime d) l db = Ok db' →
  Some ∘ Crime.key <$> crime_tbl db' = unique (dict_key d <$> l)
  ∧ Crime.id <$> crime_tbl db' = seqZ (crime_seq db) (Z.of_nat (length (crime_tbl db'))).
Proof.
  intros Hnil Hl.
  cut (Some ∘ Crime.key <$> crime_tbl db' = unique (dict_key d <$> l)
       ∧ Crime.id <$> crime_tbl db'
         = seqZ (crime_seq db) (Z.of_nat (length (crime_tbl db')))
       ∧ crime_seq db' = crime_seq db + Z.of_nat (length (crime_tbl db'))).
  { tauto. }
  revert Hl. apply (for_each_invariant (insert_crime d) (λ done s,
    Some ∘ Crime.key <$> crime_tbl s = unique (dict_key d <$> done)
    ∧ Crime.id <$> crime_tbl s = seqZ (crime_seq db) (Z.of_nat (length (crime_tbl s)))
    ∧ crime_seq s = crime_seq db + Z.of_nat (length (crime_tbl s)))).
  - intros done x s s' (Hkeys & Hids & Hseq) Hx.
    rewrite fmap_app. simpl. rewrite unique_snoc, <-Hkeys.
    unfold insert_crime in Hx.
    destruct (query_crime s _ _ _ _) as [c0|] eqn:Hq.
    + injection Hx as <-. split; [|done].
      rewrite decide_True; [by rewrite app_nil_r|].
      rewrite <-(elem_of_unique (_ <$> done)), <-Hkeys.
      apply first_Some in Hq as [Hin (Hcod & Htid & Hmes & Hano)].
      unfold dict_key. rewrite <-Htid. simpl. rewrite <-Hcod, <-Hmes, <-Hano.
      by apply (list_elem_of_fmap_2 (Some ∘ Crime.key)).
    + unfold add_crime in Hx.
      destruct (rmbh x) as [b|]; [|done].
      destruct (d !! natureza_padronizada x) as [tid|] eqn:Hd; [|done].
      case_decide as Hkey; [done|]. case_decide; [|done]. injection Hx as <-. simpl.
      rewrite !fmap_app, length_app. simpl.
      assert (dict_key d x = Some (cod_municipio x, tid, mes x, ano x)) as Hdk.
      { unfold dict_key. by rewrite Hd. }
      split; [|split].
      * rewrite decide_False; [by rewrite Hdk|].
        rewrite <-(elem_of_unique (_ <$> done)), <-Hkeys, Hdk.
        rewrite list_fmap_compose. intros Hin.
        apply list_elem_of_fmap in Hin as (k & [= <-] & Hin). done.
      * rewrite Hids, Nat2Z.inj_add, seqZ_app by lia. f_equal.
        simpl. rewrite Hseq. reflexivity.
      * rewrite Hseq. lia.
  - rewrite Hnil. simpl. split; [done|]. split; [done|]. lia.
Qed.

Lemma NoDup_fmap_eq {A B} (f : A → B) (l : list A) (x y : A) :
  NoDup (f <$> l) → x ∈ l → y ∈ l → f x = f y → x = y.
Proof.
  induction l as [|z l IH]; [by intros _ Hx; apply elem_of_nil in Hx|].
  rewrite fmap_cons, NoDup_cons. intros [Hz Hnd] Hx Hy Heq.
  apply elem_of_cons in Hx as [->|Hx], Hy as [->|Hy]; auto.
  - destruct Hz. rewrite Heq. by apply list_elem_of_fmap_2.
  - destruct Hz. rewrite <-Heq. by apply list_elem_of_fmap_2.
Qed.

(** Two ways of naming the keys that agree on when two rows have the same
    key give the same number of distinct keys. *)
Lemma length_unique_equiv {A} `{EqDecision B} `{EqDecision C} (f : A → B) (g : A → C)
    (l : list A) :
  (∀ x y, x ∈ l → y ∈ l → f x = f y ↔ g x = g y) →
  length (unique (f <$> l)) = length (unique (g <$> l)).
Proof.
  induction l as [|x l IH] using rev_ind; [done|]. intros Heq.
  rewrite !fmap_app. simpl. rewrite !unique_snoc, !length_app.
  rewrite IH by (intros y z Hy Hz; apply Heq; apply elem_of_app; by left).
  f_equal.
  assert (f x ∈ f <$> l ↔ g x ∈ g <$> l) as Hin.
  { rewrite !list_elem_of_fmap. split; intros (y & Hy & Hyl); exists y; (split; [|done]).
    - apply Heq; [apply elem_of_app; right; left|apply elem_of_app; by left|done].
    - apply Heq; [apply elem_of_app; right; left|apply elem_of_app; by left|done]. }
  destruct (decide (f x ∈ f <$> l)), (decide (g x ∈ g <$> l)); tauto || done.
Qed.

Lemma fmap_id_tipo_crime_rows (start : Z) (names : list pystr) :
  TipoCrime.id <$> zip_with tipo_crime_row (seqZ start (Z.of_nat (length names))) names
  = seqZ start (Z.of_nat (length names)).
Proof.
  revert start. induction names as [|n names IH]; intros start; [done|].
  rewrite (seqZ_cons start) by (simpl; lia).
  replace (Z.pred (Z.of_nat (length (n :: names))))
    with (Z.of_nat (length names)) by (simpl; lia).
  simpl. f_equal. apply IH.
Qed.

(** The store a load into the empty store leaves when it inserted the
    frame: the steps it went through. *)
Lemma create_normalized_database_Inserted_steps (df : list Row) (db' : store) :
  create_normalized_database empty_store df = (db', Inserted) →
  ∃ db3 d,
    insert_tipos (unique (natureza_padronizada <$> df)) db3 ∅
    = (db3, Ok d)
    ∧ tipo_crime_tbl db' = tipo_crime_tbl db3
    ∧ NoDup (TipoCrime.id <$> tipo_crime_tbl db3)
    ∧ crime_tbl db3 = [] ∧ crime_seq db3 = 1
    ∧ for_each (insert_crime d) df db3 = Ok db'.
Proof.
  intros Hrun.
  destruct (create_normalized_database_cases empty_store df eq_refl)
    as (db1 & H1 & [(e & _ & Hab)|(db2 & H2 & Hcases)]); [congruence|].
  destruct Hcases as [(db3 & e & _ & Hab)|(db3 & d & H3 & Hcases)]; [congruence|].
  destruct Hcases as [(e & _ & Hab)|(db4 & H4 & Hins)]; [congruence|].
  assert (db' = db4) as -> by congruence.
  pose proof (risp_step_frame _ _ _ H1) as (_ & Ht1 & Hc1).
  pose proof (municipio_step_frame _ _ _ H2) as (_ & Ht2 & Hc2).
  pose proof (risp_step_seq _ _ _ H1) as (Hs1 & Hq1).
  pose proof (municipio_step_seq _ _ _ H2) as (Hs2 & Hq2).
  pose proof (insert_tipos_frame _ _ _ _ _ H3) as (_ & _ & Hc3 & _).
  pose proof (insert_tipos_seq _ _ _ _ _ H3) as Hq3.
  assert (tipo_crime_tbl db2 = []) as Hnil by (rewrite Ht2, Ht1; done).
  pose proof H3 as Hrows. apply insert_tipos_rows in Hrows as (names & Hnames & Htbl).
  2: { apply NoDup_unique. }
  2: { intros n _. unfold query_tipo_crime. by rewrite Hnil. }
  pose proof (insert_tipos_dict _ _ _ _ _ H3) as [Hin Hd].
  destruct (insert_tipos_noop _ db3 ∅ Hin) as [d' H3'].
  assert (d' = d) as ->.
  { apply insert_tipos_dict in H3' as [_ Hd']. apply map_eq. intros n.
    by rewrite Hd, Hd'. }
  exists db3, d. split; [done|]. split; [by apply crime_step_frame in H4 as (_ & _ & ?)|].
  split; [|split; [by rewrite Hc3, Hc2, Hc1|split; [by rewrite Hq3, Hq2, Hq1|done]]].
  rewrite Htbl, Hnil. simpl. rewrite fmap_id_tipo_crime_rows. apply NoDup_seqZ.
Qed.

(** X7.  After a load into the empty store that inserted the frame, [crime]
    holds one row per key of the frame, in the order of first appearance,
    numbered 1, 2, 3, ...; the number of rows is the number of distinct
    combinations of municipality code, standardized type, month and year
    in the frame. *)
Theorem crime_table_after_load (df : list Row) (db' : store) :
  create_normalized_database empty_store df = (db', Inserted) →
  Some ∘ Crime.key <$> crime_tbl db' = unique (row_key db' <$> df)
  ∧ Crime.id <$> crime_tbl db' = seqZ 1 (Z.of_nat (length (crime_tbl db')))
  ∧ length (crime_tbl db')
    = length (unique ((λ r, (cod_municipio r, natureza_padronizada r, mes r, ano r))
                        <$> df)).
Proof.
  intros Hrun.
  destruct (create_normalized_database_Inserted_steps df db' Hrun)
    as (db3 & d & H3 & Htbl & Hids & Hnil & Hseq & H4).
  pose proof (insert_tipos_dict _ _ _ _ _ H3) as [Hin Hd].
  assert (∀ r, r ∈ df → d !! natureza_padronizada r
                         = tipo_id db' (natureza_padronizada r)) as Hdict.
  { intros r Hr. rewrite Hd, lookup_empty, decide_True.
    - unfold tipo_id, query_tipo_crime. by rewrite Htbl.
    - apply elem_of_unique. by apply list_elem_of_fmap_2. }
  assert (dict_key d <$> df = row_key db' <$> df) as Hkeys.
  { apply list_fmap_ext. intros i r Hr. unfold dict_key, row_key.
    rewrite Hdict; [done|]. by eapply list_elem_of_lookup_2. }
  destruct (crime_step_keys _ _ _ _ Hnil H4) as [Hk Hi].
  rewrite Hkeys in Hk. rewrite Hseq in Hi. split; [done|]. split; [done|].
  rewrite <-(length_fmap (Some ∘ Crime.key)), Hk.
  apply length_unique_equiv. intros r1 r2 Hr1 Hr2. unfold row_key.
  assert (∀ r, r ∈ df → is_Some (tipo_id db' (natureza_padronizada r))) as Hsome.
  { intros r Hr. unfold tipo_id, query_tipo_crime. rewrite Htbl.
    apply fmap_is_Some, Hin, elem_of_unique. by apply list_elem_of_fmap_2. }
  destruct (Hsome r1 Hr1) as [i1 Hi1], (Hsome r2 Hr2) as [i2 Hi2].
  rewrite Hi1, Hi2. simpl. split.
  - intros [= Hcod <- Hmes Hano]. rewrite Hcod, Hmes, Hano. do 3 f_equal.
    unfold tipo_id, query_tipo_crime in Hi1, Hi2. rewrite Htbl in Hi1, Hi2.
    destruct (first _ (tipo_crime_tbl db3)) as [t1|] eqn:Ht1; [|done].
    destruct (first (λ x, Some (TipoCrime.nome x) = natureza_padronizada r2) _)
      as [t2|] eqn:Ht2; [|done].
    simpl in *. apply first_Some in Ht1 as [Hin1 <-], Ht2 as [Hin2 <-].
    f_equal. f_equal. eapply NoDup_fmap_eq; [done..|congruence].
  - intros [= Hcod Hnp Hmes Hano]. rewrite Hnp in Hi1. congruence.
Qed.

Lemma crime_table_after_load_witness :
  length (crime_tbl (create_normalized_database empty_store [row_bh; row_bh_other]).1)
  = length (unique ((λ r, (cod_municipio r, natureza_padronizada r, mes r, ano r))
                      <$> [row_bh; row_bh_other])).
Proof.
  apply (crime_table_after_load [row_bh; row_bh_other]).
  vm_compute. reflexivity.
Defined.

(** ** When a load succeeds *)

Lemma insert_tipos_Raise_missing (l : list cell) (db db' : store) (d : gmap cell Z)
    (e : exn) :
  insert_tipos l db d = (db', Raise e) → None ∈ l.
Proof.
  revert db d. induction l as [|n l IH]; intros db d; simpl; [done|].
  destruct (query_tipo_crime db n) as [ex|] eqn:Hq.
  { intros Hl. right. by eapply IH. }
  destruct (add_tipo_crime db n) as [[db1 id]|e'] eqn:Hadd.
  { intros Hl. right. by eapply IH. }
  intros _. unfold add_tipo_crime in Hadd. destruct n as [s|]; [|left].
  case_decide as Hs; [|done].
  apply query_tipo_crime_Some in Hs as [x Hx]. congruence.
Qed.

Lemma create_normalized_database_abort_cause (db : store) (df : list Row) (e : exn) :
  (create_normalized_database db df).2 = Aborted e → ∃ r, r ∈ df ∧ ¬ filled r.
Proof.
  intros Hab. pose proof (create_normalized_database_Aborted _ _ _ Hab) as ->.
  destruct (decide (crime_tbl db = [])) as [Hnil|Hne].
  2: { by rewrite (create_normalized_database_skip db df Hne) in Hab. }
  destruct (create_normalized_database_cases db df Hnil)
    as (db1 & H1 & [(e & H2 & Hrun)|(db2 & H2 & Hcases)]).
  { rewrite Hrun in Hab. injection Hab as ->.
    apply (for_each_Raise _ (λ _, True)) in H2 as (x & s & Hx & _ & Hr); [|done..].
    destruct x as [[cod nome] r]. unfold insert_municipio in Hr.
    destruct (query_municipio s cod); [done|]. unfold add_municipio in Hr.
    destruct nome as [nome|]; [repeat case_decide; done|].
    apply elem_of_unique, list_elem_of_fmap in Hx as (row & [= _ Hnome _] & Hrow).
    exists row. split; [done|]. intros ([? Hm] & _). congruence. }
  destruct Hcases as [(db3 & e & H3 & Hrun)|(db3 & d & H3 & Hcases)].
  { apply insert_tipos_Raise_missing, elem_of_unique, list_elem_of_fmap in H3
      as (row & Hnone & Hrow).
    exists row. split; [done|]. intros (_ & [? Hn] & _). congruence. }
  destruct Hcases as [(e & H4 & Hrun)|(db4 & H4 & Hrun)];
    [|by rewrite Hrun in Hab].
  rewrite Hrun in Hab. injection Hab as ->.
  apply (for_each_Raise _ (λ _, True)) in H4 as (x & s & Hx & _ & Hr); [|done..].
  exists x. split; [done|]. intros (_ & _ & [b Hb]).
  unfold insert_crime in Hr. destruct (query_crime s _ _ _ _); [done|].
  unfold add_crime in Hr. rewrite Hb in Hr.
  apply insert_tipos_dict in H3 as [Hin Hd].
  rewrite Hd, lookup_empty, decide_True in Hr
    by (apply elem_of_unique; by apply list_elem_of_fmap_2).
  destruct (Hin (natureza_padronizada x)) as [t Ht].
  { apply elem_of_unique. by apply list_elem_of_fmap_2. }
  rewrite Ht in Hr. simpl in Hr. repeat case_decide; done.
Qed.

(** On a store without crimes a frame of filled rows is inserted. *)
Lemma create_normalized_database_filled (db : store) (df : list Row) :
  crime_tbl db = [] → (∀ r, r ∈ df → filled r) →
  (create_normalized_database db df).2 = Inserted.
Proof.
  intros Hnil Hfilled.
  destruct (create_normalized_database db df) as [db' o] eqn:Hrun.
  destruct o as [| |e]; simpl; [|done|].
  - destruct (create_normalized_database_cases db df Hnil)
      as (db1 & H1 & [(e & _ & ?)|(db2 & H2 & [(db3 & e & _ & ?)|(db3 & d & H3 &
           [(e & _ & ?)|(db4 & _ & ?)])])]); congruence.
  - destruct (create_normalized_database_abort_cause db df e) as (r & Hr & Hnot).
    { by rewrite Hrun. }
    destruct Hnot. by apply Hfilled.
Qed.

(** X8.  The loader raises only over a row that lacks a name, a type or a
    value of [rmbh]; on a store without crimes, a frame whose rows all have
    the three is inserted to the end, whatever regions, municipalities and
    types the store already holds. *)
Theorem create_normalized_database_succeeds :
  (∀ db df e, (create_normalized_database db df).2 = Aborted e →
     ∃ r, r ∈ df ∧ ¬ filled r)
  ∧ (∀ db df, crime_tbl db = [] → (∀ r, r ∈ df → filled r) →
       (create_normalized_database db df).2 = Inserted).
Proof.
  split; [apply create_normalized_database_abort_cause|].
  apply create_normalized_database_filled.
Qed.

Lemma create_normalized_database_succeeds_witness :
  (∃ r, r ∈ [row_bh; row_no_type] ∧ ¬ filled r)
  ∧ (create_normalized_database empty_store [row_bh; row_bh]).2 = Inserted.
Proof.
  split.
  - apply (proj1 create_normalized_database_succeeds empty_store [row_bh; row_no_type]
             (IntegrityError NotNull)).
    vm_compute. reflexivity.
  - apply (proj2 create_normalized_database_succeeds empty_store [row_bh; row_bh]).
    + reflexivity.
    + intros r Hr. apply elem_of_cons in Hr as [->|Hr].
      * unfold filled. simpl. repeat split; eauto.
      * apply list_elem_of_singleton in Hr as ->. unfold filled. simpl.
        repeat split; eauto.
Defined.

(** X9.  Once [crime] holds a row, no later frame is loaded: the store stays
    as it is through any sequence of loads; in particular, after a load
    that inserted a frame with at least one row, every further frame, new
    data included, is passed over. *)
Theorem load_all_after_first_load :
  (∀ db dfs, crime_tbl db ≠ [] → load_all db dfs = db)
  ∧ (∀ db db' df dfs,
       create_normalized_database db df = (db', Inserted) → df ≠ [] →
       load_all db (df :: dfs) = db').
Proof.
  assert (∀ db dfs, crime_tbl db ≠ [] → load_all db dfs = db) as Hskip.
  { intros db dfs Hne. induction dfs as [|df dfs IH]; [done|].
    simpl. by rewrite (create_normalized_database_skip db df Hne). }
  split; [done|]. intros db db' df dfs Hrun Hdf. simpl. rewrite Hrun. simpl.
  apply Hskip. by eapply create_normalized_database_Inserted.
Qed.

Lemma load_all_after_first_load_witness :
  load_all empty_store [[row_bh]; [row_no_type]; [row_bh_other]]
  = (create_normalized_database empty_store [row_bh]).1.
Proof.
  apply (proj2 load_all_after_first_load empty_store _ [row_bh]).
  - vm_compute. reflexivity.
  - discriminate.
Defined.

Lemma for_each_app {A S} (body : A → S → result S) (l k : list A) (s : S) :
  for_each body (l ++ k) s = s' ← for_each body l s; for_each body k s'.
Proof.
  revert s. induction l as [|x l IH]; intros s; simpl; [done|].
  destruct (body x s); simpl; [apply IH|done].
Qed.

(** A call that raises leaves no row in a [crime] table that had none. *)
Lemma create_normalized_database_Aborted_crime (db db' : store) (df : list Row) (e : exn) :
  crime_tbl db = [] → create_normalized_database db df = (db', Aborted e) →
  crime_tbl db' = [].
Proof.
  intros Hnil Hrun.
  destruct (create_normalized_database_cases db df Hnil) as (db1 & H1 & Hcases).
  pose proof (risp_step_frame _ _ _ H1) as (_ & _ & Hc1).
  destruct Hcases as [(e2 & _ & ?)|(db2 & H2 & Hcases)]; [congruence|].
  pose proof (municipio_step_frame _ _ _ H2) as (_ & _ & Hc2).
  destruct Hcases as [(db3 & e3 & H3 & ?)|(db3 & d & H3 & Hcases)].
  { apply insert_tipos_frame in H3 as (_ & _ & Hc3 & _). congruence. }
  apply insert_tipos_frame in H3 as (_ & _ & Hc3 & _).
  destruct Hcases as [(e4 & _ & ?)|(db4 & _ & ?)]; congruence.
Qed.

(** X10.  A row without a value of [rmbh] that is the first of the frame
    with its municipality code, type, month and year makes a load into the
    empty store end in the rejection of the missing value, and no row of
    the frame reaches [crime]. *)
Theorem create_normalized_database_missing_rmbh (pre post : list Row) (r : Row) :
  rmbh r = None →
  (∀ r0, r0 ∈ pre →
     (cod_municipio r0, natureza_padronizada r0, mes r0, ano r0)
     ≠ (cod_municipio r, natureza_padronizada r, mes r, ano r)) →
  (create_normalized_database empty_store (pre ++ r :: post)).2
  = Aborted (IntegrityError NotNull)
  ∧ crime_tbl (create_normalized_database empty_store (pre ++ r :: post)).1 = [].
Proof.
  intros Hrmbh Hfirst. set (df := pre ++ r :: post).
  assert (∀ db', create_normalized_database empty_store df ≠ (db', Inserted)) as Hnot.
  { intros db' Hrun.
    destruct (create_normalized_database_Inserted_steps df db' Hrun)
      as (db3 & d & H3 & Htbl & Hids & Hnil & Hseq & H4).
    unfold df in H4. rewrite for_each_app in H4.
    destruct (for_each (insert_crime d) pre db3) as [s|e] eqn:Hpre; [|done].
    simpl in H4. destruct (insert_crime d r s) as [s1|e] eqn:Hr; [|done].
    unfold insert_crime in Hr.
    destruct (query_crime s _ _ _ _) as [c0|] eqn:Hq.
    2: { unfold add_crime in Hr. by rewrite Hrmbh in Hr. }
    apply first_Some in Hq as [Hc0 (Hcod & Htid & Hmes & Hano)].
    destruct (crime_step_keys _ _ _ _ Hnil Hpre) as [Hkeys _].
    assert (Some (Crime.key c0) ∈ dict_key d <$> pre) as Hin.
    { rewrite <-elem_of_unique, <-Hkeys.
      by apply (list_elem_of_fmap_2 (Some ∘ Crime.key)). }
    apply list_elem_of_fmap in Hin as (r0 & Hk0 & Hr0).
    apply (Hfirst r0 Hr0). unfold dict_key in Hk0.
    destruct (d !! natureza_padronizada r0) as [tid0|] eqn:Hd0; [|done].
    injection Hk0 as Hcod0 Htid0 Hmes0 Hano0.
    rewrite <-Hcod0, <-Hmes0, <-Hano0, Hcod, Hmes, Hano. do 3 f_equal.
    apply insert_tipos_dict in H3 as [Hsome Hd].
    rewrite Hd, lookup_empty in Hd0. rewrite Hd, lookup_empty in Htid.
    assert (natureza_padronizada r0 ∈ unique (natureza_padronizada <$> df)) as Hn0.
    { apply elem_of_unique, list_elem_of_fmap_2, elem_of_app. by left. }
    assert (natureza_padronizada r ∈ unique (natureza_padronizada <$> df)) as Hn.
    { apply elem_of_unique, list_elem_of_fmap_2, elem_of_app. right. left. }
    rewrite decide_True in Hd0 by done. rewrite decide_True in Htid by done.
    destruct (query_tipo_crime db3 (natureza_padronizada r0)) as [t0|] eqn:Ht0; [|done].
    destruct (query_tipo_crime db3 (natureza_padronizada r)) as [t|] eqn:Ht; [|done].
    apply first_Some in Ht0 as [Hin0 <-], Ht as [Hin1 <-].
    simpl in *. f_equal. f_equal. eapply NoDup_fmap_eq; [done..|congruence]. }
  destruct (create_normalized_database empty_store df) as [db' o] eqn:Hrun.
  destruct o as [| |e]; simpl.
  - destruct (create_normalized_database_cases empty_store df eq_refl)
      as (db1 & H1 & [(e & _ & ?)|(db2 & H2 & [(db3 & e & _ & ?)|(db3 & d & H3 &
           [(e & _ & ?)|(db4 & _ & ?)])])]); congruence.
  - by destruct (Hnot db').
  - split.
    + f_equal. apply (create_normalized_database_Aborted empty_store df).
      by rewrite Hrun.
    + by eapply (create_normalized_database_Aborted_crime empty_store).
Qed.

Lemma create_normalized_database_missing_rmbh_witness :
  (create_normalized_database empty_store
     ([row_bh] ++ row (Some (py "BH")) (py "0001") (Some (py "ROUBO")) None 99 2 2023 7
               :: [row_bh])).2
  = Aborted (IntegrityError NotNull)
  ∧ crime_tbl (create_normalized_database empty_store
      ([row_bh] ++ row (Some (py "BH")) (py "0001") (Some (py "ROUBO")) None 99 2 2023 7
                :: [row_bh])).1 = [].
Proof.
  apply (create_normalized_database_missing_rmbh [row_bh] [row_bh]).
  - reflexivity.
  - intros r0 Hr0. apply list_elem_of_singleton in Hr0 as ->. vm_compute. discriminate.
Defined.

(** ** The time projections together *)

Lemma total_cons (P : Row → Prop) `{∀ r, Decision (P r)} (r : Row) (df : list Row) :
  total P (r :: df) = (if decide (P r) then registros r else 0) + total P df.
Proof. unfold total. rewrite filter_cons. by destruct (decide (P r)). Qed.

Lemma total_trimestre (df : list Row) (q : Z) :
  total (λ r, trimestre r = q) df
  = total (λ r, mes r = 3 * q - 2) df + total (λ r, mes r = 3 * q - 1) df
    + total (λ r, mes r = 3 * q) df.
Proof.
  induction df as [|r df IH]; [done|].
  rewrite !total_cons, IH.
  assert (trimestre r = q ↔ 3 * q - 2 ≤ mes r ≤ 3 * q) as Hq.
  { unfold trimestre. split; intros Hq.
    - subst q. pose proof (Z.div_mod (mes r - 1) 3).
      pose proof (Z.mod_pos_bound (mes r - 1) 3). lia.
    - assert ((mes r - 1) `div` 3 = q - 1); [|lia].
      symmetry. apply (Z.div_unique _ _ _ (mes r - 1 - 3 * (q - 1))); lia. }
  repeat case_decide; cbv beta in *;
    match goal with
    | H : trimestre r = q |- _ => apply Hq in H
    | H : ¬ (trimestre r = q) |- _ => rewrite Hq in H
    end; lia.
Qed.

Lemma total_range_split (key : Row → Z) (a b : Z) (df : list Row) :
  a ≤ b →
  total (λ r, a ≤ key r < b + 1) df
  = total (λ r, a ≤ key r < b) df + total (λ r, key r = b) df.
Proof.
  intros Hab. induction df as [|r df IH]; [done|].
  rewrite !total_cons, IH. repeat case_decide; cbv beta in *; lia.
Qed.

Lemma zsum_app (l k : list Z) : zsum (l ++ k) = zsum l + zsum k.
Proof. unfold zsum. induction l as [|x l IH]; simpl; [done|]. rewrite IH. lia. Qed.

(** The totals of the keys of a range add up to the total of the rows whose
    key is in the range. *)
Lemma zsum_total_range (key : Row → Z) (a : Z) (n : nat) (df : list Row) :
  zsum ((λ k, total (λ r, key r = k) df) <$> seqZ a (Z.of_nat n))
  = total (λ r, a ≤ key r < a + Z.of_nat n) df.
Proof.
  induction n as [|n IH].
  - simpl. symmetry. apply total_none. intros r _ Hr. cbv beta in Hr. lia.
  - rewrite Nat2Z.inj_succ, <-Z.add_1_r, seqZ_app, fmap_app, zsum_app, IH by lia.
    rewrite Z.add_assoc, total_range_split by lia.
    rewrite (seqZ_cons _ 1) by lia. unfold zsum. simpl. lia.
Qed.

Lemma time_projection_values (df : list Row) :
  (plot_crimes_por_mes df).*2
  = (λ m, total (λ r, mes r = m) df) <$> [1; 2; 3; 4; 5; 6; 7; 8; 9; 10; 11; 12]
  ∧ (plot_crimes_por_trimestre df).*2
    = [total (λ r, mes r = 1) df + total (λ r, mes r = 2) df + total (λ r, mes r = 3) df;
       total (λ r, mes r = 4) df + total (λ r, mes r = 5) df + total (λ r, mes r = 6) df;
       total (λ r, mes r = 7) df + total (λ r, mes r = 8) df + total (λ r, mes r = 9) df;
       total (λ r, mes r = 10) df + total (λ r, mes r = 11) df
       + total (λ r, mes r = 12) df].
Proof.
  rewrite plot_crimes_por_mes_eq, plot_crimes_por_trimestre_eq.
  rewrite <-!list_fmap_compose. split; [done|].
  change (seqZ 1 4) with [1; 2; 3; 4]. simpl. rewrite !total_trimestre.
  reflexivity.
Qed.

(** X11.  The two time projections agree: for every frame, the value of a
    quarter in the table by quarter is the sum of the values of its three
    months in the table by month. *)
Theorem trimestre_is_three_months (df : list Row) :
  ∃ v1 v2 v3 v4 v5 v6 v7 v8 v9 v10 v11 v12,
    (plot_crimes_por_mes df).*2 = [v1; v2; v3; v4; v5; v6; v7; v8; v9; v10; v11; v12]
    ∧ (plot_crimes_por_trimestre df).*2
      = [v1 + v2 + v3; v4 + v5 + v6; v7 + v8 + v9; v10 + v11 + v12].
Proof.
  destruct (time_projection_values df) as [-> ->].
  do 12 eexists. split; reflexivity.
Qed.

(** X12.  The values of the table by month, and those of the table by
    quarter, add up to the sum of [registros] over the rows whose month is
    between 1 and 12: a row with another month is counted in neither table;
    when every month of the frame is in that range both add up to the sum
    of [registros] over the whole frame. *)
Theorem time_projections_total (df : list Row) :
  zsum (plot_crimes_por_mes df).*2 = total (λ r, 1 ≤ mes r ≤ 12) df
  ∧ zsum (plot_crimes_por_trimestre df).*2 = total (λ r, 1 ≤ mes r ≤ 12) df
  ∧ ((∀ r, r ∈ df → 1 ≤ mes r ≤ 12) →
     zsum (plot_crimes_por_mes df).*2 = zsum (registros <$> df)
     ∧ zsum (plot_crimes_por_trimestre df).*2 = zsum (registros <$> df)).
Proof.
  assert (zsum (plot_crimes_por_mes df).*2 = total (λ r, 1 ≤ mes r ≤ 12) df) as Hmes.
  { destruct (time_projection_values df) as [-> _].
    change [1; 2; 3; 4; 5; 6; 7; 8; 9; 10; 11; 12] with (seqZ 1 (Z.of_nat 12)).
    rewrite (zsum_total_range mes 1 12 df). unfold total. do 2 f_equal.
    apply filter_ext_in. intros r _. lia. }
  assert (zsum (plot_crimes_por_trimestre df).*2 = zsum (plot_crimes_por_mes df).*2)
    as Htri.
  { destruct (time_projection_values df) as [-> ->]. unfold zsum. simpl. lia. }
  split; [done|]. split; [congruence|]. intros Hall.
  assert (total (λ r, 1 ≤ mes r ≤ 12) df = zsum (registros <$> df)) as Hfull.
  { unfold total, zsum. by rewrite filter_all. }
  split; congruence.
Qed.

Lemma time_projections_total_witness :
  zsum (plot_crimes_por_mes [row_bh; row_bh_other]).*2
  = zsum (registros <$> [row_bh; row_bh_other])
  ∧ zsum (plot_crimes_por_trimestre [row_bh; row_bh_other]).*2
    = zsum (registros <$> [row_bh; row_bh_other]).
Proof.
  apply (proj2 (proj2 (time_projections_total [row_bh; row_bh_other]))).
  intros r Hr. apply elem_of_cons in Hr as [->|Hr]; [vm_compute; split; discriminate|].
  apply list_elem_of_singleton in Hr as ->. vm_compute. split; discriminate.
Defined.

(** ** The ranked projections *)

Lemma filter_False_nil {A} (l : list A) : filter (λ _, False) l = [].
Proof. induction l as [|x l IH]; [done|]. by rewrite filter_cons, decide_False by tauto. Qed.

Section groupby_text.
Context (key : Row → cell) (val : Row → Z).

Lemma groupby_sum_text_lookup_acc (df : list Row) (g : gmap pystr Z) (k : pystr) :
  foldl (λ g r, match key r with
                | Some k => <[k := default 0 (g !! k) + val r]> g
                | None => g
                end) g df !! k
  = if decide (Exists (λ r, key r = Some k) df)
    then Some (default 0 (g !! k) + zsum (val <$> filter (λ r, key r = Some k) df))
    else g !! k.
Proof.
  revert g. induction df as [|r df IH]; intros g.
  - done.
  - simpl foldl. rewrite IH, filter_cons. clear IH.
    destruct (decide (key r = Some k)) as [Hk|Hk].
    + rewrite Hk, lookup_insert_eq. rewrite fmap_cons. unfold zsum. simpl.
      destruct (decide (Exists _ (r :: df))) as [_|Hno]; [|destruct Hno; by left].
      case_decide as Hex; f_equal; simpl; [lia|].
      rewrite (filter_ext_in _ (λ _, False) df); [rewrite filter_False_nil; simpl; lia|].
      intros x Hx. split; [|done]. intros Hkx. apply Hex, Exists_exists. eauto.
    + assert (match key r with
              | Some k0 => <[k0 := default 0 (g !! k0) + val r]> g
              | None => g
              end !! k = g !! k) as ->.
      { destruct (key r) as [k0|]; [|done]. rewrite lookup_insert_ne; congruence. }
      apply decide_ext. rewrite Exists_cons. tauto.
Qed.

(** The grouped series has an entry for the keys that occur in the frame,
    with the sum of the values of the rows of the key. *)
Lemma groupby_sum_text_lookup (df : list Row) (k : pystr) :
  groupby_sum_text key val df !! k
  = if decide (Exists (λ r, key r = Some k) df)
    then Some (zsum (val <$> filter (λ r, key r = Some k) df))
    else None.
Proof.
  unfold groupby_sum_text. rewrite groupby_sum_text_lookup_acc, lookup_empty.
  case_decide; [|done]. simpl. f_equal.
Qed.

End groupby_text.

Lemma reset_index_Permutation (g : gmap pystr Z) : reset_index g ≡ₚ map_to_list g.
Proof. apply merge_sort_Permutation. Qed.

Lemma elem_of_reset_index (g : gmap pystr Z) (k : pystr) (v : Z) :
  (k, v) ∈ reset_index g ↔ g !! k = Some v.
Proof. rewrite reset_index_Permutation. apply elem_of_map_to_list. Qed.

Lemma NoDup_reset_index (g : gmap pystr Z) : NoDup (reset_index g).*1.
Proof. rewrite reset_index_Permutation. apply NoDup_fst_map_to_list. Qed.

Lemma zsum_cons (x : Z) (l : list Z) : zsum (x :: l) = x + zsum l.
Proof. done. Qed.

Lemma zsum_Permutation (l k : list Z) : l ≡ₚ k → zsum l = zsum k.
Proof.
  unfold zsum. induction 1; simpl; lia.
Qed.

(** Adding to an entry of a series adds to the sum of its values. *)
Lemma zsum_insert (g : gmap pystr Z) (k : pystr) (v : Z) :
  zsum (map_to_list (<[k := default 0 (g !! k) + v]> g)).*2
  = zsum (map_to_list g).*2 + v.
Proof.
  destruct (g !! k) as [old|] eqn:Hk; simpl.
  - rewrite <-insert_delete_eq.
    rewrite (zsum_Permutation _ ((k, old + v) :: map_to_list (delete k g)).*2).
    2: { apply fmap_Permutation, map_to_list_insert, lookup_delete_eq. }
    rewrite (zsum_Permutation (map_to_list g).*2
               ((k, old) :: map_to_list (delete k g)).*2).
    2: { apply fmap_Permutation. symmetry. by apply map_to_list_delete. }
    rewrite !fmap_cons, !zsum_cons. simpl. lia.
  - rewrite (zsum_Permutation _ ((k, 0 + v) :: map_to_list g).*2).
    2: { by apply fmap_Permutation, map_to_list_insert. }
    rewrite fmap_cons, zsum_cons. simpl. lia.
Qed.

(** The values of a grouped series add up to the sum over the rows that
    have a key. *)
Lemma zsum_groupby_sum_text (key : Row → cell) (val : Row → Z) (df : list Row) :
  zsum (map_to_list (groupby_sum_text key val df)).*2
  = zsum (val <$> filter (λ r, is_Some (key r)) df).
Proof.
  unfold groupby_sum_text.
  cut (∀ g : gmap pystr Z, zsum (map_to_list (foldl (λ g r, match key r with
                | Some k => <[k := default 0 (g !! k) + val r]> g
                | None => g
                end) g df)).*2
            = zsum (map_to_list g).*2 + zsum (val <$> filter (λ r, is_Some (key r)) df)).
  { intros Hcut. rewrite Hcut, map_to_list_empty. unfold zsum. simpl. lia. }
  induction df as [|r df IH]; intros g.
  - simpl foldl. rewrite filter_nil. change (zsum (val <$> [])) with 0. lia.
  - simpl foldl. rewrite IH, filter_cons. destruct (key r) as [k|] eqn:Hk.
    + rewrite zsum_insert, decide_True by done. rewrite fmap_cons, zsum_cons. lia.
    + rewrite decide_False; [done|]. by intros [? ?].
Qed.

#[global] Instance descending_trans : Transitive descending.
Proof. intros a b c. unfold descending. lia. Qed.

#[global] Instance descending_total : Total descending.
Proof. intros a b. unfold descending. lia. Qed.

Lemma stable_sort_Permutation (l : list (pystr * Z)) : stable_sort l ≡ₚ l.
Proof. apply merge_sort_Permutation. Qed.

Lemma stable_sort_Sorted (l : list (pystr * Z)) : Sorted descending (stable_sort l).
Proof. apply (Sorted_merge_sort descending). Qed.

(** The rows of a grouped table: one per key of the frame, with the total
    of the key. *)
Lemma elem_of_grouped (key : Row → cell) (df : list Row) (k : pystr) (v : Z) :
  (k, v) ∈ reset_index (groupby_sum_text key registros df)
  ↔ (∃ r, r ∈ df ∧ key r = Some k) ∧ v = total (λ r, key r = Some k) df.
Proof.
  rewrite elem_of_reset_index, groupby_sum_text_lookup. unfold total.
  fold (zsum (registros <$> filter (λ r, key r = Some k) df)).
  rewrite <-Exists_exists. case_decide; split.
  - intros [= <-]. done.
  - intros [_ ->]. done.
  - done.
  - tauto.
Qed.

Section ranked.
Context (sort_values : list (pystr * Z) → list (pystr * Z)).
Hypothesis sort_values_Permutation : ∀ l, sort_values l ≡ₚ l.
Hypothesis sort_values_Sorted : ∀ l, Sorted descending (sort_values l).

(** X13.  Whatever sort [sort_values] uses, the table of the top
    municipalities has at most ten rows, in descending order of their
    value, no municipality twice; the value of a row is the sum of
    [registros] over the rows of the frame with that municipality; and a
    municipality of the frame that is left out has a total no larger than
    any of the ten that are shown. *)
Theorem plot_top_municipios_ranking (df : list Row) :
  (length (plot_top_municipios sort_values df) ≤ 10)%nat
  ∧ StronglySorted descending (plot_top_municipios sort_values df)
  ∧ NoDup (plot_top_municipios sort_values df).*1
  ∧ (∀ m v, (m, v) ∈ plot_top_municipios sort_values df →
       (∃ r, r ∈ df ∧ municipio r = Some m)
       ∧ v = total (λ r, municipio r = Some m) df)
  ∧ (∀ r m, r ∈ df → municipio r = Some m →
       (m, total (λ r, municipio r = Some m) df) ∈ plot_top_municipios sort_values df
       ∨ (length (plot_top_municipios sort_values df) = 10%nat
          ∧ ∀ p, p ∈ plot_top_municipios sort_values df →
              total (λ r, municipio r = Some m) df ≤ p.2)).
Proof.
  unfold plot_top_municipios.
  set (groups := reset_index (groupby_sum_text municipio registros df)).
  set (sorted := sort_values groups).
  assert (StronglySorted descending sorted) as Hsorted.
  { apply Sorted_StronglySorted; [apply _|]. apply sort_values_Sorted. }
  rewrite <-(take_drop 10 sorted) in Hsorted.
  split; [rewrite length_take; lia|]. split; [by eapply StronglySorted_app_1_l|].
  split; [|split].
  - assert (NoDup sorted.*1) as Hnd.
    { unfold sorted. rewrite sort_values_Permutation. apply NoDup_reset_index. }
    rewrite <-(take_drop 10 sorted), fmap_app in Hnd.
    by apply NoDup_app in Hnd as [? _].
  - intros m v Hin. apply elem_of_grouped. fold groups.
    rewrite <-(sort_values_Permutation groups). fold sorted.
    rewrite <-(take_drop 10 sorted). apply elem_of_app. by left.
  - intros r m Hr Hm.
    assert ((m, total (λ r, municipio r = Some m) df) ∈ sorted) as Hin.
    { unfold sorted. rewrite sort_values_Permutation. apply elem_of_grouped. eauto. }
    rewrite <-(take_drop 10 sorted) in Hin. apply elem_of_app in Hin as [Hin|Hin];
      [by left|right]. split.
    + apply length_take_le. destruct (decide (10 ≤ length sorted)%nat); [done|].
      rewrite drop_ge in Hin by lia. by apply elem_of_nil in Hin.
    + intros p Hp.
      by apply (StronglySorted_app_1_elem_of _ _ _ _ _ Hsorted Hp Hin).
Qed.

(** X14.  Whatever sort [sort_values] uses, the table by type has exactly
    one row per standardized type of the frame, with the sum of [registros]
    over the rows of the type, in descending order of that sum; its values
    add up to the sum of [registros] over the rows that have a type. *)
Theorem plot_crimes_por_tipo_table (df : list Row) :
  (∀ n v, (n, v) ∈ plot_crimes_por_tipo sort_values df
          ↔ (∃ r, r ∈ df ∧ natureza_padronizada r = Some n)
            ∧ v = total (λ r, natureza_padronizada r = Some n) df)
  ∧ NoDup (plot_crimes_por_tipo sort_values df).*1
  ∧ StronglySorted descending (plot_crimes_por_tipo sort_values df)
  ∧ zsum (plot_crimes_por_tipo sort_values df).*2
    = total (λ r, is_Some (natureza_padronizada r)) df.
Proof.
  unfold plot_crimes_por_tipo. split; [|split; [|split]].
  - intros n v. rewrite sort_values_Permutation. apply elem_of_grouped.
  - rewrite sort_values_Permutation. apply NoDup_reset_index.
  - apply Sorted_StronglySorted; [apply _|]. apply sort_values_Sorted.
  - rewrite (zsum_Permutation _
      (map_to_list (groupby_sum_text natureza_padronizada registros df)).*2).
    + apply zsum_groupby_sum_text.
    + apply fmap_Permutation. rewrite sort_values_Permutation.
      apply reset_index_Permutation.
Qed.

End ranked.

Lemma plot_top_municipios_ranking_witness :
  (∃ r, r ∈ [row_bh; row_bh_other] ∧ municipio r = Some (py "BH"))
  ∧ 99 = total (λ r, municipio r = Some (py "BH")) [row_bh; row_bh_other].
Proof.
  apply (proj1 (proj2 (proj2 (proj2
    (plot_top_municipios_ranking stable_sort stable_sort_Permutation
       stable_sort_Sorted [row_bh; row_bh_other]))))).
  vm_compute. left.
Defined.

Lemma plot_crimes_por_tipo_table_witness :
  zsum (plot_crimes_por_tipo stable_sort [row_bh; row_bh_other; row_no_type]).*2
  = total (λ r, is_Some (natureza_padronizada r)) [row_bh; row_bh_other; row_no_type].
Proof.
  apply (plot_crimes_por_tipo_table stable_sort stable_sort_Permutation
           stable_sort_Sorted).
Defined.

(** ** The menu and [main] *)






(** ** The text of a cleaned row *)























(** ** The dictionary of types, and loading twice *)

(** X19.  When the third step returns, its dictionary resolves every type
    of the list to the key of a stored row of that name, whether the row
    was found or inserted, and holds no other entry. *)
Theorem insert_tipos_resolves (l : list cell) (db db' : store) (d : gmap cell Z) :
  insert_tipos l db ∅ = (db', Ok d) →
  (∀ n, n ∈ l →
     ∃ t, t ∈ tipo_crime_tbl db' ∧ Some (TipoCrime.nome t) = n
          ∧ d !! n = Some (TipoCrime.id t))
  ∧ (∀ n, n ∉ l → d !! n = None).
Proof.
  intros Hl. apply insert_tipos_dict in Hl as [Hin Hd]. split.
  - intros n Hn. destruct (Hin n Hn) as [t Ht]. exists t.
    rewrite Hd, decide_True, Ht by done.
    apply first_Some in Ht as [? ?]. done.
  - intros n Hn. by rewrite Hd, decide_False, lookup_empty.
Qed.

Lemma insert_tipos_resolves_witness :
  (∀ n, n ∈ [Some (py "ROUBO"); Some (py "FURTO")] →
     ∃ t, t ∈ [tipo_crime_row 1 (py "ROUBO"); tipo_crime_row 2 (py "FURTO")]
          ∧ Some (TipoCrime.nome t) = n
          ∧ ({[Some (py "ROUBO") := 1; Some (py "FURTO") := 2]} : gmap cell Z) !! n
            = Some (TipoCrime.id t))
  ∧ (∀ n, n ∉ [Some (py "ROUBO"); Some (py "FURTO")] →
       ({[Some (py "ROUBO") := 1; Some (py "FURTO") := 2]} : gmap cell Z) !! n = None).
Proof.
  apply (insert_tipos_resolves [Some (py "ROUBO"); Some (py "FURTO")] empty_store
           {| risp_tbl := []; municipio_tbl := [];
              tipo_crime_tbl := [tipo_crime_row 1 (py "ROUBO");
                                 tipo_crime_row 2 (py "FURTO")];
              crime_tbl := []; tipo_crime_seq := 3; crime_seq := 1 |}).
  vm_compute. reflexivity.
Defined.

(** X20.  From any store, pre-seeded or left by a load that raised,
    loading a frame twice in a row leaves the store that loading it once
    leaves. *)
Theorem load_twice_any_store (db : store) (df : list Row) :
  load_all db [df; df] = load_all db [df].
Proof. simpl. apply create_normalized_database_idempotent. Qed.
